(** * A shallow embedding of the shell's command parser and process manager.

    The development follows the C++ sources:
    - [command_parser.cpp]: [parse_pipeline], [parse_redirection],
      [parse_background], [parse_single_command], [parse_command],
      [expand_variables_in_token];
    - [process_manager.cpp]: [find_executable], [search_path],
      [is_executable], [execute_command], [execute_pipeline_internal],
      [cleanup_finished_processes];
    - [shell.cpp]: [Shell::execute_command].

    Strings are [string], vectors are lists, the process environment and
    the file system are finite maps, and the operating system is an explicit
    world that is threaded through every call. *)

From Stdlib Require Import ZArith Ascii String List Bool Lia.
From stdpp Require Import base option list gmap strings.

Import ListNotations.
Local Open Scope string_scope.
Local Open Scope list_scope.
Local Open Scope Z_scope.

(* ===================================================================== *)
(** ** Characters and strings *)
(* ===================================================================== *)

Module Chars.

Definition backslash : ascii := Ascii.ascii_of_nat 92.
Definition squote : ascii := "'"%char.
Definition dquote : ascii := Ascii.ascii_of_nat 34.
Definition pipe_char : ascii := "|"%char.
Definition dollar : ascii := "$"%char.
Definition lbrace : ascii := "{"%char.
Definition rbrace : ascii := "}"%char.
Definition underscore : ascii := "_"%char.
Definition colon : ascii := ":"%char.
Definition slash : ascii := "/"%char.

(** [std::isspace] in the "C" locale: space, \t, \n, \v, \f, \r. *)
Definition isspace (c : ascii) : bool :=
  let n := Ascii.nat_of_ascii c in
  (Nat.eqb n 32 || (Nat.leb 9 n && Nat.leb n 13))%bool.

(** [std::isalnum] in the "C" locale. *)
Definition isalnum (c : ascii) : bool :=
  let n := Ascii.nat_of_ascii c in
  ((Nat.leb 48 n && Nat.leb n 57)
   || (Nat.leb 65 n && Nat.leb n 90)
   || (Nat.leb 97 n && Nat.leb n 122))%bool.

(** [s += c] *)
Definition push_back (s : string) (c : ascii) : string :=
  s +:+ String c EmptyString.

(** [s.empty()] *)
Definition empty (s : string) : bool :=
  match s with EmptyString => true | String _ _ => false end.

(** [s.find(c) != npos] *)
Fixpoint contains (c : ascii) (s : string) : bool :=
  match s with
  | EmptyString => false
  | String d s' => (Ascii.eqb d c || contains c s')%bool
  end.

End Chars.

(* ===================================================================== *)
(** ** The Command structure ([shell.h]) *)
(* ===================================================================== *)

Record Command := mkCommand {
  arguments : list string;
  input_file : string;
  output_file : string;
  append_output : bool;
  background : bool;
  is_pipeline : bool
}.

(** [std::make_unique<Command>()]: the default member initialisers. *)
Definition new_Command : Command :=
  {| arguments := []; input_file := EmptyString; output_file := EmptyString;
     append_output := false; background := false; is_pipeline := false |}.

Definition set_arguments (a : list string) (c : Command) : Command :=
  {| arguments := a; input_file := input_file c; output_file := output_file c;
     append_output := append_output c; background := background c;
     is_pipeline := is_pipeline c |}.

Definition set_input_file (f : string) (c : Command) : Command :=
  {| arguments := arguments c; input_file := f; output_file := output_file c;
     append_output := append_output c; background := background c;
     is_pipeline := is_pipeline c |}.

Definition set_output_file (f : string) (app : bool) (c : Command) : Command :=
  {| arguments := arguments c; input_file := input_file c; output_file := f;
     append_output := app; background := background c;
     is_pipeline := is_pipeline c |}.

Definition set_background (b : bool) (c : Command) : Command :=
  {| arguments := arguments c; input_file := input_file c;
     output_file := output_file c; append_output := append_output c;
     background := b; is_pipeline := is_pipeline c |}.

Definition set_is_pipeline (b : bool) (c : Command) : Command :=
  {| arguments := arguments c; input_file := input_file c;
     output_file := output_file c; append_output := append_output c;
     background := background c; is_pipeline := b |}.

(** The process environment, as [getenv] sees it. *)
Abbreviation Env := (gmap string string).

(* ===================================================================== *)
(** ** command_parser.cpp *)
(* ===================================================================== *)

Module CommandParser.
Import Chars.

(** *** [parse_pipeline] *)

(** The local variables of [parse_pipeline]. *)
Record scan_state := mkScan {
  result : list (list string);
  current_tokens : list string;
  current_token : string;
  in_single_quote : bool;
  in_double_quote : bool
}.

Definition scan_init : scan_state :=
  mkScan [] [] EmptyString false false.

(** [current_token += c] *)
Definition add_char (c : ascii) (st : scan_state) : scan_state :=
  mkScan (result st) (current_tokens st) (push_back (current_token st) c)
         (in_single_quote st) (in_double_quote st).

(** The body of the [if (c == '|' && ...)] branch. *)
Definition on_pipe (st : scan_state) : scan_state :=
  let toks :=
    if (negb (empty (current_token st))
        || negb (bool_decide (current_tokens st = [])))%bool
    then current_tokens st ++ [current_token st]
    else current_tokens st in
  match toks with
  | [] => mkScan (result st) [] EmptyString (in_single_quote st) (in_double_quote st)
  | _ :: _ =>
      mkScan (result st ++ [toks]) [] EmptyString (in_single_quote st) (in_double_quote st)
  end.

(** The body of the whitespace branch. *)
Definition on_space (st : scan_state) : scan_state :=
  if empty (current_token st) then st
  else mkScan (result st) (current_tokens st ++ [current_token st]) EmptyString
              (in_single_quote st) (in_double_quote st).

(** One iteration of the loop for a character that is not the start of an
    escape sequence. *)
Definition step (c : ascii) (st : scan_state) : scan_state :=
  if (Ascii.eqb c squote && negb (in_double_quote st))%bool then
    mkScan (result st) (current_tokens st) (current_token st)
           (negb (in_single_quote st)) (in_double_quote st)
  else if (Ascii.eqb c dquote && negb (in_single_quote st))%bool then
    mkScan (result st) (current_tokens st) (current_token st)
           (in_single_quote st) (negb (in_double_quote st))
  else if (Ascii.eqb c pipe_char && negb (in_single_quote st)
           && negb (in_double_quote st))%bool then
    on_pipe st
  else if (isspace c && negb (in_single_quote st)
           && negb (in_double_quote st))%bool then
    on_space st
  else add_char c st.

(** The [for] loop.  A backslash that has a successor consumes it
    ([current_token += line[++i]]); a backslash at the very end of the line
    falls through to the ordinary branches. *)
Fixpoint scan (line : string) (st : scan_state) : scan_state :=
  match line with
  | EmptyString => st
  | String c rest =>
      if Ascii.eqb c backslash then
        match rest with
        | String c' rest' => scan rest' (add_char c' st)
        | EmptyString => scan rest (step c st)
        end
      else scan rest (step c st)
  end.

(** "Add remaining token". *)
Definition finish (st : scan_state) : list (list string) :=
  if (negb (empty (current_token st))
      || negb (bool_decide (current_tokens st = [])))%bool
  then result st ++ [current_tokens st ++ [current_token st]]
  else result st.

Definition parse_pipeline (line : string) : list (list string) :=
  finish (scan line scan_init).

(** *** [parse_redirection] *)

(** The loop over [tokens]; [cmd] and [new_tokens] are the mutated
    command and the vector being built.  An operator is recognised only
    when [i + 1 < tokens.size()]. *)
Fixpoint parse_redirection_loop (cmd : Command) (new_tokens tokens : list string)
  : Command * list string :=
  match tokens with
  | [] => (cmd, new_tokens)
  | token :: rest =>
      match rest with
      | next :: rest' =>
          if String.eqb token "<" then
            parse_redirection_loop (set_input_file next cmd) new_tokens rest'
          else if String.eqb token ">" then
            parse_redirection_loop (set_output_file next false cmd) new_tokens rest'
          else if String.eqb token ">>" then
            parse_redirection_loop (set_output_file next true cmd) new_tokens rest'
          else parse_redirection_loop cmd (new_tokens ++ [token]) rest
      | [] => parse_redirection_loop cmd (new_tokens ++ [token]) rest
      end
  end.

Definition parse_redirection (cmd : Command) (tokens : list string)
  : Command * list string :=
  parse_redirection_loop cmd [] tokens.

(** *** [parse_background] *)

Definition parse_background (cmd : Command) (tokens : list string)
  : Command * list string :=
  match last tokens with
  | Some t =>
      if String.eqb t "&" then (set_background true cmd, removelast tokens)
      else (cmd, tokens)
  | None => (cmd, tokens)
  end.

(** *** [expand_variables_in_token] *)

Definition get_environment_variable (env : Env) (var_name : string) : string :=
  match env !! var_name with
  | Some v => v
  | None => EmptyString
  end.

(** The outer [for] loop; the two inner [while] loops are the two inner
    fixpoints.  A [$] that is the last character of the token takes neither
    branch and is skipped. *)
Fixpoint expand_variables_in_token (env : Env) (token : string) : string :=
  match token with
  | EmptyString => EmptyString
  | String c rest =>
      if Ascii.eqb c dollar then
        match rest with
        | EmptyString => EmptyString
        | String d rest' =>
            if Ascii.eqb d lbrace then
              (fix braces (var_name t : string) {struct t} : string :=
                 match t with
                 | EmptyString => get_environment_variable env var_name
                 | String e t' =>
                     if Ascii.eqb e rbrace
                     then get_environment_variable env var_name
                          +:+ expand_variables_in_token env t'
                     else braces (push_back var_name e) t'
                 end) EmptyString rest'
            else
              (fix name_run (var_name t : string) {struct t} : string :=
                 match t with
                 | EmptyString => get_environment_variable env var_name
                 | String e t' =>
                     if (isalnum e || Ascii.eqb e underscore)%bool
                     then name_run (push_back var_name e) t'
                     else get_environment_variable env var_name
                          +:+ expand_variables_in_token env t
                 end) EmptyString rest
        end
      else String c (expand_variables_in_token env rest)
  end.

Definition expand_variables (env : Env) (tokens : list string) : list string :=
  List.map (expand_variables_in_token env) tokens.

(** *** [parse_single_command] and [parse_command] *)

(** [nullptr] is [None]. *)
Definition parse_single_command (env : Env) (tokens : list string)
  : option Command :=
  match tokens with
  | [] => None
  | _ :: _ =>
      let command := new_Command in
      let '(command, remaining_tokens) := parse_redirection command tokens in
      let '(command, remaining_tokens) := parse_background command remaining_tokens in
      let command :=
        match remaining_tokens with
        | [] => command
        | _ :: _ => set_arguments remaining_tokens command
        end in
      Some (set_arguments (expand_variables env (arguments command)) command)
  end.

Definition parse_command (env : Env) (line : string) : option Command :=
  if empty line then None
  else
    match parse_pipeline line with
    | [] => None
    | [only] => parse_single_command env only
    | first :: _ :: _ =>
        match parse_single_command env first with
        | Some command => Some (set_is_pipeline true command)
        | None => None
        end
    end.

End CommandParser.

(* ===================================================================== *)
(** ** The operating system, as far as the shell observes it *)
(* ===================================================================== *)

Module OS.

(** What [waitpid] stores in [status]: [WIFEXITED] with [WEXITSTATUS],
    [WIFSIGNALED] with [WTERMSIG], or neither. *)
Inductive wstatus :=
| WExited (code : Z)
| WSignaled (sig : Z)
| WOther.

(** An entry of the kernel's table of children of the shell: the status the
    child ends with, and whether it has already terminated. *)
Record child := mkChild { fate : wstatus; finished : bool }.

(** What a forked child does to its descriptors before [exec]. *)
Inductive child_action :=
| CDup2 (fd target : Z)
| CClose (fd : Z).

(** Observable actions of the shell process, in program order. *)
Inductive event :=
| EStderr (msg : string)
| EStdout (msg : string)
| EBgExited (pid code : Z)     (* "Background process <pid> exited with status <code>" *)
| EBgSignaled (pid sig : Z)    (* "Background process <pid> terminated by signal <sig>" *)
| EPipe (rd wr : Z)            (* a successful pipe() *)
| EFork (pid : Z) (setup : list child_action)   (* a successful fork() *)
| EClose (fd : Z)
| EWait (pid : Z)              (* waitpid(pid, &status, 0) *)
| EPoll (pid : Z).             (* waitpid(pid, &status, WNOHANG) *)

(** The flag combinations the shell passes to [open]: [O_RDONLY],
    [O_WRONLY | O_CREAT | O_TRUNC], [O_WRONLY | O_CREAT | O_APPEND]. *)
Inductive open_mode := ORead | OTruncate | OAppend.

Record World := mkWorld {
  environ : Env;                      (* getenv *)
  files : gmap string Z;              (* stat: st_mode of every existing path *)
  open_ok : string -> open_mode -> bool; (* whether open() of a path succeeds *)
  execvp_ok : string -> bool;         (* whether execvp() of a path succeeds *)
  fork_script : list (option (positive * wstatus));
    (* results of the coming fork() calls: failure, or the pid of the child
       and the status its program image terminates with *)
  pipe_script : list (option (Z * Z)); (* results of the coming pipe() calls *)
  procs : gmap Z child;               (* children not yet reaped *)
  cwd : option string;                (* getcwd, when it succeeds *)
  trace : list event
}.

Definition set_trace (t : list event) (w : World) : World :=
  mkWorld (environ w) (files w) (open_ok w) (execvp_ok w) (fork_script w)
          (pipe_script w) (procs w) (cwd w) t.

Definition set_procs (p : gmap Z child) (w : World) : World :=
  mkWorld (environ w) (files w) (open_ok w) (execvp_ok w) (fork_script w)
          (pipe_script w) p (cwd w) (trace w).

Definition set_fork_script (f : list (option (positive * wstatus))) (w : World) : World :=
  mkWorld (environ w) (files w) (open_ok w) (execvp_ok w) f
          (pipe_script w) (procs w) (cwd w) (trace w).

Definition set_pipe_script (f : list (option (Z * Z))) (w : World) : World :=
  mkWorld (environ w) (files w) (open_ok w) (execvp_ok w) (fork_script w)
          f (procs w) (cwd w) (trace w).

Definition log (e : event) (w : World) : World :=
  set_trace (trace w ++ [e]) w.

(** [fork()], seen from the parent.  [exec_ok] tells whether the child's
    code reaches a successful [execvp]; otherwise the child calls
    [_exit(127)].  The result is the pid, or [-1]. *)
Definition fork (exec_ok : bool) (setup : list child_action) (w : World)
  : Z * World :=
  match fork_script w with
  | [] => (-1, w)
  | None :: rest => (-1, set_fork_script rest w)
  | Some (pid, st) :: rest =>
      let ch := mkChild (if exec_ok then st else WExited 127) false in
      (Z.pos pid,
       log (EFork (Z.pos pid) setup)
           (set_procs (<[Z.pos pid := ch]> (procs w)) (set_fork_script rest w)))
  end.

(** [pipe(fds)]: the two descriptors, or failure. *)
Definition pipe (w : World) : option (Z * Z) * World :=
  match pipe_script w with
  | [] => (None, w)
  | None :: rest => (None, set_pipe_script rest w)
  | Some (rd, wr) :: rest => (Some (rd, wr), log (EPipe rd wr) (set_pipe_script rest w))
  end.

Definition close (fd : Z) (w : World) : World := log (EClose fd) w.

(** [waitpid(pid, &status, 0)]: blocks until the child has terminated and
    reaps it.  When [pid] is not a child the call fails and [status] is
    left as it was, which the callers never initialise: [WOther]. *)
Definition waitpid (pid : Z) (w : World) : wstatus * World :=
  match procs w !! pid with
  | Some ch => (fate ch, log (EWait pid) (set_procs (delete pid (procs w)) w))
  | None => (WOther, log (EWait pid) w)
  end.

(** The three results of [waitpid(pid, &status, WNOHANG)]: [0], [pid]
    (with the status), [-1]. *)
Inductive poll_result :=
| StillRunning
| Reaped (st : wstatus)
| NoChild.

Definition waitpid_nohang (pid : Z) (w : World) : poll_result * World :=
  match procs w !! pid with
  | Some ch =>
      if finished ch
      then (Reaped (fate ch), log (EPoll pid) (set_procs (delete pid (procs w)) w))
      else (StillRunning, log (EPoll pid) w)
  | None => (NoChild, log (EPoll pid) w)
  end.

(** Counting the system calls of a trace. *)
Definition is_pipe (e : event) : bool :=
  match e with EPipe _ _ => true | _ => false end.
Definition is_fork (e : event) : bool :=
  match e with EFork _ _ => true | _ => false end.
Definition is_wait (e : event) : bool :=
  match e with EWait _ => true | _ => false end.
Definition count (p : event -> bool) (t : list event) : nat :=
  length (List.filter p t).

(** The pids forked, respectively waited for, in program order. *)
Definition forked (t : list event) : list Z :=
  omap (fun e => match e with EFork pid _ => Some pid | _ => None end) t.
Definition waited (t : list event) : list Z :=
  omap (fun e => match e with EWait pid => Some pid | _ => None end) t.

(** The pids polled without blocking, in program order. *)
Definition polled (t : list event) : list Z :=
  omap (fun e => match e with EPoll pid => Some pid | _ => None end) t.

(** The reports about a background pid. *)
Definition reports_of (pid : Z) (t : list event) : list event :=
  List.filter (fun e => match e with
                        | EBgExited p _ | EBgSignaled p _ => Z.eqb p pid
                        | _ => false
                        end) t.

End OS.

(* ===================================================================== *)
(** ** process_manager.cpp *)
(* ===================================================================== *)

Module ProcessManager.
Import Chars OS.

(** The permission bits of [<sys/stat.h>]. *)
Definition S_IXUSR : Z := 64.   (* 0100 *)
Definition S_IXGRP : Z := 8.    (* 0010 *)
Definition S_IXOTH : Z := 1.    (* 0001 *)

(** *** Executable resolution *)

Definition is_executable (w : World) (path : string) : bool :=
  match files w !! path with
  | None => false
  | Some st_mode =>
      (negb (Z.land st_mode S_IXUSR =? 0)
       || negb (Z.land st_mode S_IXGRP =? 0)
       || negb (Z.land st_mode S_IXOTH =? 0))%bool
  end.

(** "Split PATH by ':'": [cur] is [path_str.substr(start, ...)] as far as
    it has been read; empty components are dropped ([end > start],
    [start < path_str.length()]). *)
Fixpoint split_path (path_str cur : string) (path_dirs : list string)
  : list string :=
  match path_str with
  | EmptyString => if empty cur then path_dirs else path_dirs ++ [cur]
  | String c rest =>
      if Ascii.eqb c colon
      then split_path rest EmptyString (if empty cur then path_dirs else path_dirs ++ [cur])
      else split_path rest (push_back cur c) path_dirs
  end.

(** "Search each directory". *)
Fixpoint search_dirs (w : World) (command_name : string) (path_dirs : list string)
  : string :=
  match path_dirs with
  | [] => EmptyString
  | dir :: more =>
      let full_path := dir +:+ "/" +:+ command_name in
      if is_executable w full_path then full_path
      else search_dirs w command_name more
  end.

Definition search_path (w : World) (command_name : string) : string :=
  match environ w !! "PATH" with
  | None => EmptyString
  | Some path_str => search_dirs w command_name (split_path path_str EmptyString [])
  end.

Definition find_executable (w : World) (command_name : string) : string :=
  if contains slash command_name then
    if is_executable w command_name then command_name else EmptyString
  else search_path w command_name.

(** *** The child's side of a fork *)

(** [true] for the result [0], [false] for [-1].  [dup2] of a descriptor
    that [open] has just returned is taken to succeed. *)
Definition setup_io_redirection (w : World) (command : Command) : bool :=
  if (negb (empty (input_file command))
      && negb (open_ok w (input_file command) ORead))%bool then false
  else if (negb (empty (output_file command))
           && negb (open_ok w (output_file command)
                      (if append_output command then OAppend else OTruncate)))%bool
  then false
  else true.

(** [exec_external_command] returns only to report failure; [true] says
    that [execvp] replaced the process image. *)
Definition exec_external_command (w : World) (command : Command) : bool :=
  match arguments command with
  | [] => false
  | cmd_name :: _ =>
      if negb (setup_io_redirection w command) then false
      else
        let executable_path := find_executable w cmd_name in
        if empty executable_path then false
        else execvp_ok w executable_path
  end.

(** *** The manager's state and its monad *)

Record PM := mkPM {
  os : World;
  background_processes_ : list Z
}.

Definition M (A : Type) : Type := PM -> A * PM.

Definition ret {A} (a : A) : M A := fun s => (a, s).
Definition bind {A B} (m : M A) (k : A -> M B) : M B :=
  fun s => let '(a, s') := m s in k a s'.

(** stdpp's monad notations: [x ← m; k] and [m;; k]. *)
#[global] Instance M_ret : MRet M := @ret.
#[global] Instance M_bind : MBind M := fun A B k m => bind m k.

(** Lifting the system calls. *)
Definition sys {A} (f : World -> A * World) : M A :=
  fun s => let '(a, w) := f (os s) in (a, mkPM w (background_processes_ s)).
Definition emit (e : event) : M unit :=
  sys (fun w => (tt, log e w)).
Definition world : M World := fun s => (os s, s).

Definition add_background_process (pid : Z) : M unit :=
  fun s => (tt, mkPM (os s) (background_processes_ s ++ [pid])).

(** *** [execute_command] *)

Definition builtin_names : list string :=
  ["cd"; "pwd"; "exit"; "help"; "echo"; "export"].

Definition status_of (st : wstatus) (otherwise : Z) : Z :=
  match st with
  | WExited code => code
  | WSignaled sig => 128 + sig
  | WOther => otherwise
  end.

Definition execute_command (command : Command) : M Z :=
  match arguments command with
  | [] => ret 0
  | cmd_name :: _ =>
      if bool_decide (cmd_name ∈ builtin_names) then ret 0
      else
        w ← world;
        let executable_path := find_executable w cmd_name in
        if empty executable_path then
          emit (EStderr ("Command not found: " +:+ cmd_name));; ret (-1)
        else
          pid ← sys (fork (exec_external_command w command) []);
          if pid <? 0 then
            emit (EStderr "Failed to fork process");; ret (-1)
          else if background command then
            add_background_process pid;; ret 0
          else
            status ← sys (waitpid pid);
            ret (status_of status 0)
  end.

(** *** [execute_pipeline_internal] *)

(** "Create pipes": [None] when a [pipe] call fails. *)
Fixpoint create_pipes (num_pipes : nat) (pipe_fds : list Z) : M (option (list Z)) :=
  match num_pipes with
  | O => ret (Some pipe_fds)
  | S n =>
      r ← sys pipe;
      match r with
      | None => emit (EStderr "Failed to create pipe");; ret None
      | Some (rd, wr) => create_pipes n (pipe_fds ++ [rd; wr])
      end
  end.

(** What child [i] of [size] does before [exec_external_command]. *)
Definition child_setup (i size : nat) (pipe_fds : list Z) : list child_action :=
  (if Nat.ltb 0 i then [CDup2 (nth ((i - 1) * 2) pipe_fds 0) 0] else [])
  ++ (if Nat.ltb i (size - 1) then [CDup2 (nth (i * 2 + 1) pipe_fds 0) 1] else [])
  ++ List.map CClose pipe_fds.

(** "Execute each command in the pipeline": [None] when a [fork] fails. *)
Fixpoint fork_children (i size : nat) (pipe_fds : list Z)
         (rest : list Command) (child_pids : list Z) : M (option (list Z)) :=
  match rest with
  | [] => ret (Some child_pids)
  | command :: rest' =>
      w ← world;
      pid ← sys (fork (exec_external_command w command) (child_setup i size pipe_fds));
      if pid <? 0 then
        emit (EStderr "Failed to fork process");; ret None
      else fork_children (S i) size pipe_fds rest' (child_pids ++ [pid])
  end.

Fixpoint close_all (fds : list Z) : M unit :=
  match fds with
  | [] => ret tt
  | fd :: more => sys (fun w => (tt, close fd w));; close_all more
  end.

(** "Wait for all children"; [back] is [child_pids.back()]. *)
Fixpoint wait_children (back : Z) (pids : list Z) (final_status : Z) : M Z :=
  match pids with
  | [] => ret final_status
  | pid :: more =>
      status ← sys (waitpid pid);
      wait_children back more
        (if pid =? back then status_of status final_status else final_status)
  end.

Definition execute_pipeline_internal (pipeline : list Command) : M Z :=
  let num_pipes := (length pipeline - 1)%nat in
  r ← create_pipes num_pipes [];
  match r with
  | None => ret (-1)
  | Some pipe_fds =>
      r ← fork_children 0 (length pipeline) pipe_fds pipeline [];
      match r with
      | None => ret (-1)
      | Some child_pids =>
          close_all pipe_fds;;
          wait_children (List.last child_pids 0) child_pids 0
      end
  end.

Definition execute_pipeline (pipeline : list Command) : M Z :=
  match pipeline with
  | [] => ret 0
  | [command] => execute_command command
  | _ :: _ :: _ => execute_pipeline_internal pipeline
  end.

(** *** The background registry *)

(** One iteration per tracked pid. *)
Fixpoint sweep (pids still_running : list Z) : M (list Z) :=
  match pids with
  | [] => ret still_running
  | pid :: more =>
      r ← sys (waitpid_nohang pid);
      match r with
      | StillRunning => sweep more (still_running ++ [pid])
      | Reaped (WExited code) =>
          if negb (code =? 0)
          then emit (EBgExited pid code);; sweep more still_running
          else sweep more still_running
      | Reaped (WSignaled sig) =>
          emit (EBgSignaled pid sig);; sweep more still_running
      | Reaped WOther => sweep more still_running
      | NoChild => sweep more still_running
      end
  end.

Definition cleanup_finished_processes : M unit :=
  fun s =>
    let '(still_running, s') := sweep (background_processes_ s) [] s in
    (tt, mkPM (os s') still_running).

Definition wait_for_background_processes : M unit :=
  cleanup_finished_processes.

End ProcessManager.

(* ===================================================================== *)
(** ** builtin_commands.cpp (the registry only) and shell.cpp *)
(* ===================================================================== *)

Module BuiltinCommands.

(** The names that [initialize_commands] registers, in order. *)
Definition builtin_commands_ : list string :=
  ["cd"; "pwd"; "exit"; "help"; "export"; "echo"; "history"].

Definition is_builtin (command_name : string) : bool :=
  bool_decide (command_name ∈ builtin_commands_).

End BuiltinCommands.

Module Shell.
Import OS ProcessManager.

Record ShellState := mkShell {
  running_ : bool;
  current_directory_ : string;
  process_manager_ : PM
}.

Section WithBuiltins.

(** The handlers of the internal operations are collaborators of the
    engine: all that is used here is that running one yields a status
    and a new world. *)
Variable execute_builtin : Command -> World -> Z * World.

(** [Shell::execute_command].  The status that
    [ProcessManager::execute_command] returns is dropped; nothing in the
    body throws. *)
Definition execute_command (command_line : string) (sh : ShellState)
  : ShellState :=
  let pm := process_manager_ sh in
  match CommandParser.parse_command (environ (os pm)) command_line with
  | None =>
      mkShell (running_ sh) (current_directory_ sh)
              (mkPM (log (EStderr "Error: Failed to parse command") (os pm))
                    (background_processes_ pm))
  | Some command =>
      if match arguments command with
         | [] => false
         | name :: _ => BuiltinCommands.is_builtin name
         end
      then
        let '(status, w) := execute_builtin command (os pm) in
        mkShell (if status =? -1 then false else running_ sh)
                (current_directory_ sh)
                (mkPM w (background_processes_ pm))
      else
        let '(_, pm') :=
          if is_pipeline command then
            (emit (EStdout "Pipeline detected but not fully implemented yet.");;
             ProcessManager.execute_command command) pm
          else ProcessManager.execute_command command pm in
        let current_directory :=
          match arguments command with
          | name :: _ =>
              if String.eqb name "cd" then
                match cwd (os pm') with
                | Some d => d
                | None => current_directory_ sh
                end
              else current_directory_ sh
          | [] => current_directory_ sh
          end in
        mkShell (running_ sh) current_directory pm'
  end.

End WithBuiltins.

End Shell.

(* ===================================================================== *)
(** ** A small machine for concrete runs *)
(* ===================================================================== *)

Module Demo.
Import OS ProcessManager.

(** PATH is [/a:/b]; [/a/tool] exists with mode 0644, the files under [/b]
    have mode 0755.  The next three forks yield the pids 10, 11 and 12, whose
    programs exit with 3, are killed by signal 9, and exit with 7; the next
    two pipes yield the descriptors 3, 4 and 5, 6. *)
Definition machine : World :=
  mkWorld {[ "PATH" := "/a:/b" ]}
          {[ "/a/tool" := 420; "/b/tool" := 493; "/b/ls" := 493;
             "/b/cat" := 493; "/b/sort" := 493; "/b/grep" := 493;
             "/b/wc" := 493 ]}
          (fun _ _ => true) (fun _ => true)
          [Some (10%positive, WExited 3); Some (11%positive, WSignaled 9);
           Some (12%positive, WExited 7)]
          [Some (3, 4); Some (5, 6)]
          ∅ None [].

Definition manager : PM := mkPM machine [].

(** PATH is [:/a:/b], with an empty first component; [/tool] and
    [/b/tool] exist with mode 0755, [/a/tool] with mode 0644. *)
Definition colon_machine : World :=
  mkWorld {[ "PATH" := ":/a:/b" ]}
          {[ "/tool" := 493; "/a/tool" := 420; "/b/tool" := 493 ]}
          (fun _ _ => true) (fun _ => true) [] [] ∅ None [].

(** A stand-in for the internal operations. *)
Definition no_builtin (command : Command) (w : World) : Z * World := (0, w).

Definition shell : Shell.ShellState := Shell.mkShell true EmptyString manager.

Definition simple (args : list string) : Command :=
  mkCommand args EmptyString EmptyString false false false.

End Demo.

(* ===================================================================== *)
(** ** Notions used to state the properties *)
(* ===================================================================== *)

Module ParserSpec.
Import Chars CommandParser.

(** [current_token += s] *)
Definition add_string (s : string) (st : scan_state) : scan_state :=
  mkScan (result st) (current_tokens st) (current_token st +:+ s)
         (in_single_quote st) (in_double_quote st).

(** The quote that is open in a state, if any. *)
Definition open_quote_of (st : scan_state) : option ascii :=
  if in_single_quote st then Some squote
  else if in_double_quote st then Some dquote
  else None.

(** The quote state in which the scan of a whole line ends. *)
Definition open_quote (line : string) : option ascii :=
  open_quote_of (scan line scan_init).

(** The line ends with a backslash that has nothing left to escape. *)
Fixpoint lone_backslash (line : string) : bool :=
  match line with
  | EmptyString => false
  | String c rest =>
      if Ascii.eqb c backslash then
        match rest with
        | EmptyString => true
        | String _ rest' => lone_backslash rest'
        end
      else lone_backslash rest
  end.

(** The two quote flags are not set together. *)
Definition flags_ok (st : scan_state) : Prop :=
  in_single_quote st && in_double_quote st = false.

(** A character that the scanner appends to the current token in every
    state: no blank, quote, backslash or pipe. *)
Definition plain_char (c : ascii) : bool :=
  negb (isspace c || Ascii.eqb c squote || Ascii.eqb c dquote
        || Ascii.eqb c backslash || Ascii.eqb c pipe_char).

(** Every character of the string satisfies [p]. *)
Fixpoint all_chars (p : ascii -> bool) (s : string) : bool :=
  match s with
  | EmptyString => true
  | String c s' => (p c && all_chars p s')%bool
  end.

(** A non-empty word without blanks, quotes, backslashes and pipes. *)
Definition plain_word (w : string) : bool :=
  (negb (empty w) && all_chars plain_char w)%bool.

(** The words, separated by single blanks. *)
Fixpoint unwords (ws : list string) : string :=
  match ws with
  | [] => EmptyString
  | w :: ws' =>
      match ws' with
      | [] => w
      | _ :: _ => w +:+ String " " (unwords ws')
      end
  end.

(** The token is one of the three redirection operators. *)
Definition redirect_op (t : string) : bool :=
  (String.eqb t "<" || String.eqb t ">" || String.eqb t ">>")%bool.

End ParserSpec.

Module ResolutionSpec.
Import Chars OS ProcessManager.

(** Some executable permission bit is set: owner, group or other. *)
Definition has_exec_bit (st_mode : Z) : Prop :=
  Z.land st_mode S_IXUSR <> 0 \/ Z.land st_mode S_IXGRP <> 0
  \/ Z.land st_mode S_IXOTH <> 0.

(** The path exists and has an executable permission bit. *)
Definition executable_file (w : World) (path : string) : Prop :=
  exists st_mode, files w !! path = Some st_mode /\ has_exec_bit st_mode.

(** The value of PATH that lists the given directories. *)
Fixpoint join_path (dirs : list string) : string :=
  match dirs with
  | [] => EmptyString
  | d :: ds =>
      match ds with
      | [] => d
      | _ :: _ => d +:+ String colon (join_path ds)
      end
  end.

(** The components that the splitting loop keeps. *)
Definition nonempty_dirs (dirs : list string) : list string :=
  List.filter (fun d => negb (empty d)) dirs.

End ResolutionSpec.

Module RegistrySpec.
Import OS ProcessManager.

(** What one sweep prints about a pid that it reaps with status [st]. *)
Definition expected_report (pid : Z) (st : wstatus) : list event :=
  match st with
  | WExited code => if code =? 0 then [] else [EBgExited pid code]
  | WSignaled sig => [EBgSignaled pid sig]
  | WOther => []
  end.

(** Appending several events to the trace. *)
Definition log_all (evs : list event) (w : World) : World :=
  set_trace (trace w ++ evs) w.

(** One iteration of the loop of [cleanup_finished_processes]. *)
Definition poll_step (p : Z) (still_running : list Z) (s : PM) : list Z * PM :=
  match procs (os s) !! p with
  | Some ch =>
      if finished ch
      then (still_running,
            mkPM (log_all (expected_report p (fate ch))
                    (log (EPoll p) (set_procs (delete p (procs (os s))) (os s))))
                 (background_processes_ s))
      else (still_running ++ [p],
            mkPM (log (EPoll p) (os s)) (background_processes_ s))
  | None => (still_running, mkPM (log (EPoll p) (os s)) (background_processes_ s))
  end.

(** The reports about [pid] that a sweep over [pids] adds, given the entry of
    [pid] in the table of children. *)
Definition sweep_reports (pid : Z) (pids : list Z) (entry : option child)
  : list event :=
  match entry with
  | Some ch =>
      if (finished ch && bool_decide (pid ∈ pids))%bool
      then expected_report pid (fate ch) else []
  | None => []
  end.

End RegistrySpec.

Module PipelineSpec.
Import OS ProcessManager.

(** The status a forked child ends with: that of its program when the
    child's code reaches [execvp], and 127 otherwise. *)
Definition child_fate (w : World) (command : Command) (st : wstatus) : wstatus :=
  if exec_external_command w command then st else WExited 127.

(** The children that the coming forks create for the commands. *)
Fixpoint spawned (w : World) (cmds : list Command)
         (kids : list (positive * wstatus)) : list (Z * wstatus) :=
  match cmds, kids with
  | command :: cmds', (pid, st) :: kids' =>
      (Z.pos pid, child_fate w command st) :: spawned w cmds' kids'
  | _, _ => []
  end.

(** The fork events of the children [i], [i+1], ... of a pipeline. *)
Fixpoint fork_events (i size : nat) (pipe_fds : list Z) (pids : list Z)
  : list event :=
  match pids with
  | [] => []
  | pid :: more =>
      EFork pid (child_setup i size pipe_fds) :: fork_events (S i) size pipe_fds more
  end.

(** The table of children after the forks. *)
Definition register (kids : list (Z * wstatus)) (m : gmap Z child) : gmap Z child :=
  foldl (fun m kid => <[kid.1 := mkChild kid.2 false]> m) m kids.

(** The contents of [pipe_fds] after the pipes have been created. *)
Definition pipe_ends (pipes : list (Z * Z)) : list Z :=
  concat (List.map (fun rw => [rw.1; rw.2]) pipes).

(** The pipe events of the created pipes. *)
Definition pipe_events (pipes : list (Z * Z)) : list event :=
  List.map (fun rw => EPipe rw.1 rw.2) pipes.

(** The world with new scripts, children and trace. *)
Definition world_with (w : World) (fs : list (option (positive * wstatus)))
    (ps : list (option (Z * Z))) (pr : gmap Z child) (tr : list event) : World :=
  mkWorld (environ w) (files w) (open_ok w) (execvp_ok w) fs ps pr (cwd w) tr.

(** The final status computed by the loop that waits for the children. *)
Definition fold_status (back : Z) (kids : list (Z * wstatus)) (final_status : Z) : Z :=
  foldl (fun acc kid => if kid.1 =? back then status_of kid.2 acc else acc)
        final_status kids.

End PipelineSpec.

(* ===================================================================== *)
(** ** Strings handed to the C library *)
(* ===================================================================== *)

Module CStrings.

(** The byte that ends a C string. *)
Definition nul : ascii := Ascii.ascii_of_nat 0.

(** [s.c_str()] as the C library reads it: the characters before the first
    NUL byte. *)
Fixpoint c_str (s : string) : string :=
  match s with
  | EmptyString => EmptyString
  | String c rest =>
      if Ascii.eqb c nul then EmptyString else String c (c_str rest)
  end.

End CStrings.

(* ===================================================================== *)
(** ** command_parser.cpp: the tokenizer and the character classes *)
(* ===================================================================== *)

Module Tokenizer.
Import Chars.

(** The local variables of [tokenize_with_quotes]. *)
Record tok_state := mkTok {
  tokens : list string;
  current_token : string;
  in_single_quote : bool;
  in_double_quote : bool;
  escaped : bool
}.

Definition tok_init : tok_state := mkTok [] EmptyString false false false.

(** One iteration of the loop of [tokenize_with_quotes]. *)
Definition tok_step (c : ascii) (st : tok_state) : tok_state :=
  if escaped st then
    mkTok (tokens st) (push_back (current_token st) c)
          (in_single_quote st) (in_double_quote st) false
  else if Ascii.eqb c backslash then
    mkTok (tokens st) (current_token st)
          (in_single_quote st) (in_double_quote st) true
  else if (Ascii.eqb c squote && negb (in_double_quote st))%bool then
    mkTok (tokens st) (current_token st)
          (negb (in_single_quote st)) (in_double_quote st) (escaped st)
  else if (Ascii.eqb c dquote && negb (in_single_quote st))%bool then
    mkTok (tokens st) (current_token st)
          (in_single_quote st) (negb (in_double_quote st)) (escaped st)
  else if (isspace c && negb (in_single_quote st)
           && negb (in_double_quote st))%bool then
    if empty (current_token st) then st
    else mkTok (tokens st ++ [current_token st]) EmptyString
               (in_single_quote st) (in_double_quote st) (escaped st)
  else
    mkTok (tokens st) (push_back (current_token st) c)
          (in_single_quote st) (in_double_quote st) (escaped st).

Fixpoint tok_loop (line : string) (st : tok_state) : tok_state :=
  match line with
  | EmptyString => st
  | String c rest => tok_loop rest (tok_step c st)
  end.

Definition tokenize_with_quotes (line : string) : list string :=
  let st := tok_loop line tok_init in
  if empty (current_token st) then tokens st
  else tokens st ++ [current_token st].

Definition tokenize (line : string) : list string :=
  tokenize_with_quotes line.

Definition process_token (env : Env) (token : string) : string :=
  CommandParser.expand_variables_in_token env token.

Definition is_quote (c : ascii) : bool :=
  (Ascii.eqb c dquote || Ascii.eqb c squote)%bool.

Definition is_whitespace (c : ascii) : bool := isspace c.

Definition is_special_char (c : ascii) : bool :=
  (Ascii.eqb c pipe_char || Ascii.eqb c "<" || Ascii.eqb c ">"
   || Ascii.eqb c "&" || Ascii.eqb c backslash || Ascii.eqb c dollar)%bool.

End Tokenizer.

Module ParserMoreSpec.
Import Chars CommandParser ParserSpec.

(** A character that the tokenizer appends to the current token in every
    unescaped state: no blank, quote or backslash. *)
Definition word_char (c : ascii) : bool :=
  negb (isspace c || Ascii.eqb c squote || Ascii.eqb c dquote
        || Ascii.eqb c backslash).

(** A non-empty word of such characters. *)
Definition shell_word (w : string) : bool :=
  (negb (empty w) && all_chars word_char w)%bool.

(** A character of a variable name. *)
Definition name_char (c : ascii) : bool :=
  (isalnum c || Ascii.eqb c underscore)%bool.

(** The strings, with [sep] between neighbours. *)
Fixpoint join_with (sep : string) (parts : list string) : string :=
  match parts with
  | [] => EmptyString
  | x :: more =>
      match more with
      | [] => x
      | _ :: _ => x +:+ sep +:+ join_with sep more
      end
  end.

(** No segment collected so far is empty. *)
Definition segments_ok (st : scan_state) : Prop :=
  Forall (fun seg : list string => seg <> []) (result st).

(** A non-empty segment of plain words. *)
Definition good_segment (seg : list string) : Prop :=
  seg <> [] /\ Forall (fun t => plain_word t = true) seg.

(** Blanks and pipe characters only. *)
Definition blank_or_pipe (c : ascii) : bool :=
  (isspace c || Ascii.eqb c pipe_char)%bool.


(** The inner loop of [expand_variables_in_token] for the [${] syntax. *)
Definition read_braced (env : Env) : string -> string -> string :=
  fix braces (var_name t : string) {struct t} : string :=
    match t with
    | EmptyString => get_environment_variable env var_name
    | String e t' =>
        if Ascii.eqb e rbrace
        then get_environment_variable env var_name
             +:+ expand_variables_in_token env t'
        else braces (push_back var_name e) t'
    end.

(** The inner loop of [expand_variables_in_token] for the [$name] syntax. *)
Definition read_name (env : Env) : string -> string -> string :=
  fix name_run (var_name t : string) {struct t} : string :=
    match t with
    | EmptyString => get_environment_variable env var_name
    | String e t' =>
        if (isalnum e || Ascii.eqb e underscore)%bool
        then name_run (push_back var_name e) t'
        else get_environment_variable env var_name
             +:+ expand_variables_in_token env t
    end.

(** No value of the environment contains a dollar sign. *)
Definition dollar_free (env : Env) : Prop :=
  forall name value, env !! name = Some value -> contains dollar value = false.

(** What a recognized redirection operator does to the command. *)
Definition apply_redirect (op file : string) (cmd : Command) : Command :=
  if String.eqb op "<" then set_input_file file cmd
  else if String.eqb op ">" then set_output_file file false cmd
  else set_output_file file true cmd.

End ParserMoreSpec.

Module TokenizerSpec.
Import Chars Tokenizer.

(** No token collected so far is empty. *)
Definition tokens_ok (st : tok_state) : Prop :=
  Forall (fun t : string => t <> EmptyString) (tokens st).

(** [current_token += s] *)
Definition tok_add_string (s : string) (st : tok_state) : tok_state :=
  mkTok (tokens st) (current_token st +:+ s)
        (in_single_quote st) (in_double_quote st) (escaped st).

End TokenizerSpec.

(* ===================================================================== *)
(** ** process_manager.cpp: [is_process_running] *)
(* ===================================================================== *)

Module ProcessQueries.
Import OS ProcessManager.

(** The result of the non-blocking [waitpid] decides; a child that has
    terminated is reaped by the call. *)
Definition is_process_running (pid : Z) : M bool :=
  r ← sys (waitpid_nohang pid);
  mret (match r with
        | StillRunning => true
        | Reaped _ => false
        | NoChild => false
        end).

End ProcessQueries.

Module ProcessMoreSpec.
Import OS ProcessManager.

(** The child [pid] terminates. *)
Definition child_exits (pid : Z) (w : World) : World :=
  set_procs (alter (fun ch => mkChild (fate ch) true) pid (procs w)) w.

(** [pid] is a child that has not terminated. *)
Definition still_running (table : gmap Z child) (pid : Z) : bool :=
  match table !! pid with
  | Some ch => negb (finished ch)
  | None => false
  end.

(** The exit status that the launcher derives from a wait status. *)
Definition exit_status (st : wstatus) : Z :=
  match st with
  | WExited code => code
  | WSignaled sig => 128 + sig
  | WOther => 0
  end.

(** The command names no file of its own for its input or output, so that
    its child does nothing to its descriptors after the pipe wiring. *)
Definition no_redirection (command : Command) : Prop :=
  input_file command = EmptyString /\ output_file command = EmptyString.

(** What stage [i] of a pipeline should do to its descriptors, given the
    pipes in creation order, pipe [j] joining stage [j] to stage [j+1]:
    standard input (0) becomes the read end of the pipe before the stage,
    standard output (1) the write end of the pipe after it, and then both
    ends of every pipe are closed. *)
Definition stage_wiring (pipes : list (Z * Z)) (i : nat) : list child_action :=
  match i with
  | O => []
  | S j => match pipes !! j with
           | Some (rd, _) => [CDup2 rd 0]
           | None => []
           end
  end
  ++ match pipes !! i with
     | Some (_, wr) => [CDup2 wr 1]
     | None => []
     end
  ++ concat (List.map (fun rw => [CClose rw.1; CClose rw.2]) pipes).

(** The fork events of a pipeline whose stages are wired this way. *)
Definition wired_forks (pipes : list (Z * Z)) (pids : list Z) : list event :=
  imap (fun i pid => EFork pid (stage_wiring pipes i)) pids.

End ProcessMoreSpec.

(* ===================================================================== *)
(** ** builtin_commands.cpp: the internal operations *)
(* ===================================================================== *)

Module Builtins.
Import Chars CStrings OS.

(** A line written to an output stream is recorded as one event, without
    its line break, as in the process manager. *)
Definition out (msg : string) (w : World) : World := log (EStdout msg) w.
Definition err (msg : string) (w : World) : World := log (EStderr msg) w.

Fixpoint out_lines (msgs : list string) (w : World) : World :=
  match msgs with
  | [] => w
  | msg :: more => out_lines more (out msg w)
  end.

Definition set_environ (e : Env) (w : World) : World :=
  mkWorld e (files w) (open_ok w) (execvp_ok w) (fork_script w)
          (pipe_script w) (procs w) (cwd w) (trace w).

(** [setenv(name, value, 1)] on C strings: fails (EINVAL) for an empty name
    and for a name with an equals sign in it. *)
Definition setenv (name value : string) (w : World) : option World :=
  if (empty name || contains "=" name)%bool then None
  else Some (set_environ (<[name := value]> (environ w)) w).

(** [arg.find('=')], [arg.substr(0, pos)] and [arg.substr(pos + 1)]. *)
Fixpoint split_at_equals (arg : string) : option (string * string) :=
  match arg with
  | EmptyString => None
  | String c rest =>
      if Ascii.eqb c "=" then Some (EmptyString, rest)
      else match split_at_equals rest with
           | Some (var_name, var_value) => Some (String c var_name, var_value)
           | None => None
           end
  end.

Definition get_current_directory (w : World) : string :=
  match cwd w with
  | Some d => d
  | None => EmptyString
  end.

(** [path.substr(1)] *)
Definition tail_of (path : string) : string :=
  match path with
  | EmptyString => EmptyString
  | String _ rest => rest
  end.

Definition resolve_path (w : World) (path : string) : string :=
  if empty path then get_current_directory w
  else if String.eqb path "~" then
    match environ w !! "HOME" with
    | Some home => home
    | None => get_current_directory w
    end
  else if (Nat.ltb 2 (String.length path)
           && String.eqb (String.substring 0 2 path) "~/")%bool then
    match environ w !! "HOME" with
    | Some home => home +:+ tail_of path
    | None => path
    end
  else path.

Section WithChdir.

(** [chdir]: the world after a successful change of directory. *)
Variable chdir : string -> World -> option World.

Definition cmd_cd (args : list string) (w : World) : Z * World :=
  let go (target_dir : string) :=
    match chdir (resolve_path w target_dir) w with
    | Some w' => (0, w')
    | None =>
        (1, err ("cd: " +:+ target_dir +:+ ": No such file or directory") w)
    end in
  match args with
  | [] =>
      match environ w !! "HOME" with
      | Some home => go home
      | None => (1, err "cd: HOME environment variable not set" w)
      end
  | [target_dir] => go target_dir
  | _ :: _ :: _ => (1, err "cd: too many arguments" w)
  end.

Definition cmd_pwd (args : list string) (w : World) : Z * World :=
  match args with
  | _ :: _ => (1, err "pwd: too many arguments" w)
  | [] =>
      let d := get_current_directory w in
      if empty d then (1, w) else (0, out d w)
  end.

(** The value of [atoi] is computed and never used. *)
Definition cmd_exit (args : list string) (w : World) : Z * World :=
  match args with
  | _ :: _ :: _ => (1, err "exit: too many arguments" w)
  | _ => (-1, out "Goodbye!" w)
  end.

(** "name", "description", "usage" of the registered commands, in order. *)
Definition builtin_table : list (string * string * string) :=
  [ ("cd", "Change the current directory", "cd [directory]");
    ("pwd", "Print the current working directory", "pwd");
    ("exit", "Exit the shell", "exit [status]");
    ("help", "Display help information", "help [command]");
    ("export", "Set environment variables", "export VARIABLE=value");
    ("echo", "Display text or variables", "echo [text]");
    ("history", "Show command history (if available)", "history") ].

Definition help_entry (entry : string * string * string) : list string :=
  let '(name, description, usage) := entry in
  (name +:+ " - " +:+ description)
  :: (if empty usage then [] else ["  Usage: " +:+ usage])
  ++ [EmptyString].

(** The lines of [get_help()]. *)
Definition get_help : list string :=
  ["Available built-in commands:"; EmptyString]
  ++ concat (List.map help_entry builtin_table)
  ++ ["Additional features:";
      "  Pipeline support (|) - Connect multiple commands";
      "  I/O redirection (<, >, >>) - Redirect input/output";
      "  Background execution (&) - Run commands in background";
      "  Environment variables ($HOME, $PATH, etc.)";
      "  Quoting ('string' and " +:+ String dquote "string" +:+ String dquote ")"].

Fixpoint find_entry (cmd_name : string) (table : list (string * string * string))
  : option (string * string * string) :=
  match table with
  | [] => None
  | entry :: more =>
      if String.eqb entry.1.1 cmd_name then Some entry
      else find_entry cmd_name more
  end.

Definition cmd_help (args : list string) (w : World) : Z * World :=
  match args with
  | [] => (0, out_lines get_help w)
  | [cmd_name] =>
      match find_entry cmd_name builtin_table with
      | Some (name, description, usage) =>
          (0, out_lines ((name +:+ " - " +:+ description)
                         :: (if empty usage then [] else ["Usage: " +:+ usage])) w)
      | None => (1, out ("No help available for command: " +:+ cmd_name) w)
      end
  | _ :: _ :: _ => (1, err "help: too many arguments" w)
  end.

(** The loop of [cmd_export] over the arguments. *)
Fixpoint export_loop (args : list string) (w : World) : Z * World :=
  match args with
  | [] => (0, w)
  | arg :: more =>
      match split_at_equals arg with
      | None => export_loop more (err ("export: invalid argument: " +:+ arg) w)
      | Some (var_name, var_value) =>
          match setenv (c_str var_name) (c_str var_value) w with
          | Some w' => export_loop more w'
          | None => (1, err ("export: failed to set " +:+ var_name) w)
          end
      end
  end.

Definition cmd_export (args : list string) (w : World) : Z * World :=
  match args with
  | [] => (1, err "export: missing argument" w)
  | _ :: _ => export_loop args w
  end.

(** The arguments with single blanks between them. *)
Fixpoint echo_text (args : list string) : string :=
  match args with
  | [] => EmptyString
  | arg :: more =>
      match more with
      | [] => arg
      | _ :: _ => arg +:+ " " +:+ echo_text more
      end
  end.

Definition cmd_echo (args : list string) (w : World) : Z * World :=
  (0, out (echo_text args) w).

Definition cmd_history (args : list string) (w : World) : Z * World :=
  match args with
  | _ :: _ => (1, err "history: too many arguments" w)
  | [] =>
      (0, out_lines
            ["Command history not implemented in this demo shell.";
             "In a full implementation, this would show recently executed commands."]
            w)
  end.

Record BuiltinCommand := mkBuiltin {
  name : string;
  handler : list string -> World -> Z * World
}.

(** The registry that [initialize_commands] builds (the descriptions are in
    [builtin_table]). *)
Definition builtin_commands_ : list BuiltinCommand :=
  [ mkBuiltin "cd" cmd_cd; mkBuiltin "pwd" cmd_pwd; mkBuiltin "exit" cmd_exit;
    mkBuiltin "help" cmd_help; mkBuiltin "export" cmd_export;
    mkBuiltin "echo" cmd_echo; mkBuiltin "history" cmd_history ].

Fixpoint dispatch (registry : list BuiltinCommand) (cmd_name : string)
         (args : list string) (w : World) : Z * World :=
  match registry with
  | [] => (0, w)
  | cmd :: more =>
      if String.eqb (name cmd) cmd_name then handler cmd args w
      else dispatch more cmd_name args w
  end.

Definition execute_builtin (command : Command) (w : World) : Z * World :=
  match arguments command with
  | [] => (0, w)
  | cmd_name :: args => dispatch builtin_commands_ cmd_name args w
  end.

End WithChdir.

End Builtins.

(* ===================================================================== *)
(** ** shell.cpp: the prompt and the read-eval loop *)
(* ===================================================================== *)

Module ShellLoop.
Import Chars OS ProcessManager Shell.

(** What [initialize] stores besides the state of [Shell.ShellState]. *)
Record Config := mkConfig {
  prompt_template_ : string;
  username_ : string;
  hostname_ : string;
  is_root : bool              (* geteuid() == 0 *)
}.

(** The template that [initialize] installs. *)
Definition default_template : string :=
  String backslash "u@" +:+ String backslash "h:" +:+ String backslash "w"
  +:+ String backslash "$ ".

(** The text after the last slash, when there is a slash. *)
Fixpoint after_last_slash (s : string) : option string :=
  match s with
  | EmptyString => None
  | String c rest =>
      match after_last_slash rest with
      | Some t => Some t
      | None => if Ascii.eqb c slash then Some rest else None
      end
  end.

(** The case ['w'] of [generate_prompt]. *)
Definition working_directory_name (current_directory : string) : string :=
  match after_last_slash current_directory with
  | Some t => if empty t then current_directory else t
  | None => current_directory
  end.

(** The [switch] of [generate_prompt]. *)
Definition prompt_escape (cfg : Config) (current_directory : string)
    (escape : ascii) : string :=
  if Ascii.eqb escape "u" then username_ cfg
  else if Ascii.eqb escape "h" then hostname_ cfg
  else if Ascii.eqb escape "w" then working_directory_name current_directory
  else if Ascii.eqb escape "W" then current_directory
  else if Ascii.eqb escape dollar then (if is_root cfg then "#" else "$")
  else String escape EmptyString.

(** The loop of [generate_prompt]; [prompt] is the text built so far. *)
Fixpoint prompt_loop (cfg : Config) (current_directory : string)
         (template prompt : string) : string :=
  match template with
  | EmptyString => prompt
  | String c rest =>
      if Ascii.eqb c backslash then
        match rest with
        | String escape rest' =>
            prompt_loop cfg current_directory rest'
              (prompt +:+ prompt_escape cfg current_directory escape)
        | EmptyString => prompt_loop cfg current_directory rest (push_back prompt c)
        end
      else prompt_loop cfg current_directory rest (push_back prompt c)
  end.

Definition generate_prompt (cfg : Config) (sh : ShellState) : string :=
  prompt_loop cfg (current_directory_ sh) (prompt_template_ cfg) EmptyString.

(** Writing a text to the standard output of the shell. *)
Definition print (msg : string) (sh : ShellState) : ShellState :=
  mkShell (running_ sh) (current_directory_ sh)
          (mkPM (log (EStdout msg) (os (process_manager_ sh)))
                (background_processes_ (process_manager_ sh))).

Definition display_prompt (cfg : Config) (sh : ShellState) : ShellState :=
  print (generate_prompt cfg sh) sh.

(** [command_line.find_first_not_of(" \t\n\r") == npos] *)
Definition skipped_char (c : ascii) : bool :=
  let n := Ascii.nat_of_ascii c in
  (Nat.eqb n 32 || Nat.eqb n 9 || Nat.eqb n 10 || Nat.eqb n 13)%bool.

Fixpoint only_blanks (command_line : string) : bool :=
  match command_line with
  | EmptyString => true
  | String c rest => (skipped_char c && only_blanks rest)%bool
  end.

Definition sweep_background (sh : ShellState) : ShellState :=
  mkShell (running_ sh) (current_directory_ sh)
          (wait_for_background_processes (process_manager_ sh)).2.

Section WithBuiltins.

Variable execute_builtin : Command -> World -> Z * World.
Variable cfg : Config.

(** [Shell::run]: [lines] is what [getline] will deliver before the end of
    the input, [command_count] is the static counter of the loop. *)
Fixpoint run_loop (lines : list string) (command_count : Z) (sh : ShellState)
  : ShellState :=
  if running_ sh then
    let sh := display_prompt cfg sh in
    match lines with
    | [] => print EmptyString sh
    | command_line :: rest =>
        if only_blanks command_line then run_loop rest command_count sh
        else
          let sh := Shell.execute_command execute_builtin command_line sh in
          let command_count := command_count + 1 in
          if 10 <=? command_count
          then run_loop rest 0 (sweep_background sh)
          else run_loop rest command_count sh
    end
  else sh.

Definition run (lines : list string) (sh : ShellState) : ShellState :=
  run_loop lines 0 sh.

(** [Shell::cleanup], run by the destructor. *)
Definition cleanup (sh : ShellState) : ShellState :=
  print "Goodbye!" (print EmptyString (sweep_background sh)).

End WithBuiltins.

End ShellLoop.

(* ===================================================================== *)
(** * Properties *)
(* ===================================================================== *)

(** ** Strings *)

Module StringFacts.
Import Chars.

Lemma string_app_nil_l (s : string) : EmptyString +:+ s = s.
Proof. reflexivity. Qed.

Lemma string_app_cons (c : ascii) (a b : string) :
  String c a +:+ b = String c (a +:+ b).
Proof. reflexivity. Qed.

Lemma string_app_nil_r (s : string) : s +:+ EmptyString = s.
Proof.
  induction s as [|c s IH]; [done |]. by rewrite string_app_cons, IH.
Qed.

Lemma string_app_assoc (a b c : string) : (a +:+ b) +:+ c = a +:+ (b +:+ c).
Proof.
  induction a as [|x a IH]; [done |]. by rewrite !string_app_cons, IH.
Qed.

Lemma push_back_app (a b : string) (c : ascii) :
  push_back a c +:+ b = a +:+ String c b.
Proof. unfold push_back. by rewrite string_app_assoc. Qed.

Lemma empty_true (s : string) : empty s = true <-> s = EmptyString.
Proof. destruct s; simpl; split; congruence. Qed.

Lemma empty_false (s : string) : empty s = false <-> s <> EmptyString.
Proof. destruct s; simpl; split; congruence. Qed.

Lemma empty_app (a b : string) : empty (a +:+ b) = (empty a && empty b)%bool.
Proof. by destruct a. Qed.

Lemma contains_app (c : ascii) (a b : string) :
  contains c (a +:+ b) = (contains c a || contains c b)%bool.
Proof.
  induction a as [|x a IH]; [done |].
  rewrite string_app_cons. simpl. rewrite IH. by rewrite orb_assoc.
Qed.

End StringFacts.

(** ** The parser *)

Module ParserFacts.
Import Chars CommandParser StringFacts ParserSpec.

Lemma add_string_nil st : add_string EmptyString st = st.
Proof. destruct st. unfold add_string; cbn [current_token]. by rewrite string_app_nil_r. Qed.

Lemma add_string_cons c s st :
  add_string (String c s) st = add_string s (add_char c st).
Proof. unfold add_string, add_char; cbn [current_token]. by rewrite push_back_app. Qed.

(** *** The two quote flags are never set together *)

Lemma add_char_flags c st : flags_ok st -> flags_ok (add_char c st).
Proof. done. Qed.

Lemma step_flags c st : flags_ok st -> flags_ok (step c st).
Proof.
  unfold flags_ok, step, on_pipe, on_space. intros H.
  repeat (case_match; simpl in *; try done);
    destruct (in_single_quote st), (in_double_quote st);
    simpl in *; try done; by rewrite ?andb_false_r in *.
Qed.

Lemma scan_flags_aux n : forall line st,
  (String.length line <= n)%nat -> flags_ok st -> flags_ok (scan line st).
Proof.
  induction n as [|n IH]; intros [|c rest] st Hlen Hst; simpl in *; try done; try lia.
  destruct (Ascii.eqb c backslash).
  - destruct rest as [|c' rest']; simpl in *.
    + by apply step_flags.
    + apply IH; [lia | by apply add_char_flags].
  - apply IH; [lia | by apply step_flags].
Qed.

Lemma scan_flags line st : flags_ok st -> flags_ok (scan line st).
Proof. by apply (scan_flags_aux (String.length line)). Qed.

(** *** Appending one character to a line *)

Lemma scan_snoc_aux n : forall line st c,
  (String.length line <= n)%nat ->
  lone_backslash line = false ->
  scan (line +:+ String c EmptyString) st = step c (scan line st).
Proof.
  induction n as [|n IH]; intros [|a rest] st c Hlen Hb;
    rewrite ?string_app_nil_l, ?string_app_cons; simpl in *; try lia.
  - by destruct (Ascii.eqb c backslash).
  - by destruct (Ascii.eqb c backslash).
  - destruct (Ascii.eqb a backslash).
    + destruct rest as [|b rest']; [done |].
      rewrite string_app_cons. simpl in *.
      apply IH; [lia | done].
    + apply IH; [lia | done].
Qed.

Lemma scan_snoc line st c :
  lone_backslash line = false ->
  scan (line +:+ String c EmptyString) st = step c (scan line st).
Proof. by apply (scan_snoc_aux (String.length line)). Qed.

Lemma finish_close_quote st q :
  flags_ok st -> open_quote_of st = Some q -> finish (step q st) = finish st.
Proof.
  unfold flags_ok, open_quote_of, step. intros Hok Hq.
  destruct (in_single_quote st) eqn:Hs, (in_double_quote st) eqn:Hd;
    simpl in *; try done; by simplify_eq.
Qed.

Lemma open_quote_nonempty line q : open_quote line = Some q -> line <> EmptyString.
Proof. by intros H ->. Qed.

(** *** Text between quotes *)

Lemma step_in_quote q c st :
  (q = squote \/ q = dquote) ->
  flags_ok st -> open_quote_of st = Some q ->
  c <> q ->
  step c st = add_char c st.
Proof.
  unfold flags_ok, open_quote_of, step. intros Hq Hok Hopen Hc.
  destruct (in_single_quote st) eqn:Hs, (in_double_quote st) eqn:Hd;
    simpl in *; try done; simplify_eq;
    destruct (Ascii.eqb_spec c squote), (Ascii.eqb_spec c dquote);
    simpl; try done; by rewrite ?andb_false_r.
Qed.

Lemma contains_cons_false c d s :
  contains c (String d s) = false -> d <> c /\ contains c s = false.
Proof.
  simpl. intros [H1 H2]%orb_false_elim. split; [|done].
  by destruct (Ascii.eqb_spec d c).
Qed.

Lemma scan_quoted_body q : forall body rest st,
  (q = squote \/ q = dquote) ->
  flags_ok st -> open_quote_of st = Some q ->
  contains q body = false -> contains backslash body = false ->
  scan (body +:+ String q rest) st = scan rest (step q (add_string body st)).
Proof.
  induction body as [|c body IH]; intros rest st Hq Hok Hopen Hnq Hnb.
  - rewrite add_string_nil, string_app_nil_l. simpl.
    assert (Ascii.eqb q backslash = false) as ->; [by destruct Hq as [-> | ->] | done].
  - apply contains_cons_false in Hnq as [Hcq Hnq].
    apply contains_cons_false in Hnb as [Hcb Hnb].
    rewrite add_string_cons, string_app_cons. cbn [scan].
    destruct (Ascii.eqb_spec c backslash); [done |].
    rewrite (step_in_quote q) by done.
    apply IH; done.
Qed.

Lemma open_quote_none st :
  open_quote_of st = None ->
  in_single_quote st = false /\ in_double_quote st = false.
Proof.
  unfold open_quote_of.
  by destruct (in_single_quote st), (in_double_quote st).
Qed.

Lemma scan_quoted q body rest st :
  (q = squote \/ q = dquote) ->
  open_quote_of st = None ->
  contains q body = false -> contains backslash body = false ->
  scan (String q (body +:+ String q rest)) st = scan rest (add_string body st).
Proof.
  intros Hq [Hs Hd]%open_quote_none Hnq Hnb.
  assert (Ascii.eqb q backslash = false) as Hqb by (by destruct Hq as [-> | ->]).
  cbn [scan]. rewrite Hqb.
  assert (exists st', step q st = st' /\ flags_ok st' /\ open_quote_of st' = Some q
                      /\ step q (add_string body st') = add_string body st)
    as (st' & -> & Hok & Hopen & Hclose).
  { eexists; split; [done |].
    unfold step, flags_ok, open_quote_of, add_string. rewrite Hs, Hd.
    destruct Hq as [-> | ->]; simpl; rewrite ?Hs, ?Hd; simpl; try done.
    all: destruct st; simpl in *; by subst. }
  destruct body as [|b body'] eqn:Hbody.
  - rewrite string_app_nil_l. cbn [scan]. rewrite Hqb.
    rewrite <- Hclose, !add_string_nil. by destruct rest.
  - rewrite <- Hbody in *. rewrite scan_quoted_body by done.
    by rewrite Hclose.
Qed.

(** *** Words separated by single spaces *)

Lemma step_plain c st :
  open_quote_of st = None -> plain_char c = true -> step c st = add_char c st.
Proof.
  intros [Hs Hd]%open_quote_none Hc. unfold step, plain_char in *.
  rewrite Hs, Hd.
  destruct (isspace c), (Ascii.eqb c squote), (Ascii.eqb c dquote),
    (Ascii.eqb c pipe_char), (Ascii.eqb c backslash); simpl in *; try done.
Qed.

Lemma plain_char_not_backslash c :
  plain_char c = true -> Ascii.eqb c backslash = false.
Proof.
  unfold plain_char. destruct (Ascii.eqb c backslash); [|done].
  by rewrite !orb_true_r.
Qed.

Lemma scan_plain : forall body rest st,
  open_quote_of st = None -> all_chars plain_char body = true ->
  scan (body +:+ rest) st = scan rest (add_string body st).
Proof.
  induction body as [|c body IH]; intros rest st Hst Hall.
  - by rewrite add_string_nil.
  - simpl in Hall. apply andb_prop in Hall as [Hc Hall].
    rewrite add_string_cons, string_app_cons. cbn [scan].
    rewrite (plain_char_not_backslash c Hc), step_plain by done.
    by apply IH.
Qed.

Lemma scan_blank rest st :
  open_quote_of st = None ->
  scan (String " " rest) st = scan rest (on_space st).
Proof.
  intros [Hs Hd]%open_quote_none. cbn [scan].
  change (Ascii.eqb " " backslash) with false. cbv iota.
  unfold step. by rewrite Hs, Hd.
Qed.

Lemma last_cons_default {A} : forall (l : list A) (a d : A),
  List.last (a :: l) d = List.last l a.
Proof.
  induction l as [|b l IH]; intros a d; [done |].
  change (List.last (a :: b :: l) d) with (List.last (b :: l) d).
  by rewrite !IH.
Qed.

Lemma Forall_last {A} (P : A -> Prop) : forall (l : list A) (a : A),
  Forall P (a :: l) -> P (List.last l a).
Proof.
  induction l as [|b l IH]; intros a Hall; [by apply Forall_inv in Hall |].
  rewrite (last_cons_default l b a). apply IH.
  by apply Forall_inv_tail in Hall.
Qed.

Lemma scan_unwords : forall ws w st,
  Forall (fun t => plain_word t = true) (w :: ws) ->
  open_quote_of st = None -> current_token st = EmptyString ->
  scan (unwords (w :: ws)) st
  = mkScan (result st) (current_tokens st ++ removelast (w :: ws))
           (List.last ws w) false false.
Proof.
  induction ws as [|w2 ws IH]; intros w st Hall Hst Hcur.
  - apply Forall_inv in Hall. apply andb_prop in Hall as [_ Hall].
    cbn [unwords]. rewrite <- (string_app_nil_r w) at 1.
    rewrite scan_plain by done. cbn [scan removelast List.last].
    apply open_quote_none in Hst as [Hs Hd].
    unfold add_string. rewrite Hcur, Hs, Hd, string_app_nil_l.
    by rewrite (right_id_L [] (++)).
  - pose proof (Forall_inv Hall) as Hw. apply Forall_inv_tail in Hall.
    apply andb_prop in Hw as [Hne Hw].
    change (unwords (w :: w2 :: ws)) with (w +:+ String " " (unwords (w2 :: ws))).
    rewrite scan_plain, scan_blank by done.
    assert (on_space (add_string w st)
            = mkScan (result st) (current_tokens st ++ [w]) EmptyString
                     (in_single_quote st) (in_double_quote st)) as ->.
    { unfold on_space, add_string. cbn [current_token result current_tokens
        in_single_quote in_double_quote].
      rewrite Hcur, string_app_nil_l.
      by destruct w. }
    rewrite IH; [| done | by unfold open_quote_of in * | done].
    cbn [result current_tokens]. rewrite <- (assoc_L (++)).
    by rewrite (last_cons_default ws w2 w).
Qed.

Lemma parse_pipeline_unwords w ws :
  Forall (fun t => plain_word t = true) (w :: ws) ->
  parse_pipeline (unwords (w :: ws)) = [w :: ws].
Proof.
  intros Hall. unfold parse_pipeline. rewrite scan_unwords by done.
  assert (plain_word (List.last ws w) = true) as Hlast.
  { by apply (Forall_last (fun t => plain_word t = true)). }
  apply andb_prop in Hlast as [Hne _].
  unfold finish. cbn [current_token current_tokens result scan_init].
  destruct (empty (List.last ws w)); [done |]. cbn [negb orb].
  rewrite !app_nil_l.
  rewrite <- (last_cons_default ws w w).
  by rewrite <- app_removelast_last.
Qed.

Lemma unwords_nonempty w ws :
  plain_word w = true -> empty (unwords (w :: ws)) = false.
Proof.
  intros [Hne _]%andb_prop. destruct ws; cbn [unwords]; [by destruct (empty w) |].
  rewrite empty_app. by destruct (empty w).
Qed.

(** *** Redirection and background markers *)

Lemma parse_redirection_loop_words : forall words cmd acc last_token,
  Forall (fun t => redirect_op t = false) words ->
  parse_redirection_loop cmd acc (words ++ [last_token])
  = (cmd, acc ++ words ++ [last_token]).
Proof.
  induction words as [|t words IH]; intros cmd acc last_token Hall; [done |].
  pose proof (Forall_inv Hall) as Ht. apply Forall_inv_tail in Hall.
  unfold redirect_op in Ht.
  apply orb_false_elim in Ht as [[H1 H2]%orb_false_elim H3].
  cbn [app parse_redirection_loop].
  destruct (words ++ [last_token]) as [|next rest'] eqn:Hrest.
  { by destruct words. }
  rewrite H1, H2, H3, <- Hrest, IH by done.
  by rewrite <- (assoc_L (++)).
Qed.

Lemma parse_redirection_words cmd words :
  Forall (fun t => redirect_op t = false) words ->
  parse_redirection cmd words = (cmd, words).
Proof.
  intros Hall. destruct words as [|w ws] using rev_ind; [done |].
  apply Forall_app in Hall as [Hall _].
  unfold parse_redirection. by rewrite parse_redirection_loop_words.
Qed.

Lemma parse_background_other cmd tokens :
  last tokens <> Some "&" -> parse_background cmd tokens = (cmd, tokens).
Proof.
  unfold parse_background. intros H.
  destruct (last tokens) as [t|]; [|done].
  destruct (String.eqb_spec t "&"); [by subst | done].
Qed.

(** *** Variable expansion *)

Lemma expand_app_no_dollar env : forall a b,
  contains dollar a = false ->
  expand_variables_in_token env (a +:+ b) = a +:+ expand_variables_in_token env b.
Proof.
  induction a as [|c a IH]; intros b Ha; [done |].
  apply contains_cons_false in Ha as [Hc Ha].
  rewrite !string_app_cons. cbn [expand_variables_in_token].
  destruct (Ascii.eqb_spec c dollar); [done |].
  by rewrite IH.
Qed.

Lemma expand_no_dollar env s :
  contains dollar s = false -> expand_variables_in_token env s = s.
Proof.
  intros H. rewrite <- (string_app_nil_r s) at 1.
  rewrite expand_app_no_dollar by done. by rewrite string_app_nil_r.
Qed.

Lemma parse_single_command_words env w ws :
  parse_redirection new_Command (w :: ws) = (new_Command, w :: ws) ->
  last (w :: ws) <> Some "&" ->
  parse_single_command env (w :: ws)
  = Some (mkCommand (expand_variables env (w :: ws)) EmptyString EmptyString false false false).
Proof.
  intros Hr Hb. unfold parse_single_command.
  rewrite Hr, parse_background_other by done. done.
Qed.

End ParserFacts.

Module ParserClaims.
Import Chars CommandParser StringFacts ParserSpec ParserFacts.

(** C2, as stated, fails: the line made of [cat], a blank, an opening
    double quote and [abc] ends inside the double quote, and it is parsed
    into a command instead of being rejected. *)
Lemma unterminated_quote_is_parsed :
  ~ (forall (env : Env) (line : string),
        open_quote line <> None -> parse_command env line = None).
Proof.
  intros H.
  specialize (H ∅ ("cat " +:+ String dquote "abc")).
  vm_compute in H. by discriminate H.
Qed.

(** C2 (amended): a line that ends inside a single or double quote is not
    rejected for that reason; the quote is closed implicitly at the end of
    the line, so the line parses exactly as the same line with the closing
    quote appended. *)
Theorem unterminated_quote_closes_at_end_of_line
    (env : Env) (line : string) (q : ascii) :
  open_quote line = Some q ->
  lone_backslash line = false ->
  parse_command env line = parse_command env (line +:+ String q EmptyString).
Proof.
  intros Hq Hb.
  assert (parse_pipeline (line +:+ String q EmptyString) = parse_pipeline line) as Hpp.
  { unfold parse_pipeline. rewrite scan_snoc by done.
    apply finish_close_quote; [|done]. by apply scan_flags. }
  unfold parse_command. rewrite Hpp.
  pose proof (open_quote_nonempty line q Hq) as Hne.
  destruct line as [|c line]; [done |]. done.
Qed.

Lemma unterminated_quote_closes_at_end_of_line_witness :
  parse_command ∅ ("cat " +:+ String dquote "abc")
  = parse_command ∅ (("cat " +:+ String dquote "abc") +:+ String dquote EmptyString).
Proof.
  apply (unterminated_quote_closes_at_end_of_line
           ∅ ("cat " +:+ String dquote "abc") dquote); reflexivity.
Defined.

(** C3, as stated, fails: when [cat] is followed by a double-quoted [>]
    and by [out], the quoted [>] is taken as the output redirection, and
    when [sleep 5] is followed by a double-quoted [&], the quoted [&] is
    taken as the background marker. *)
Lemma quoted_operator_token_is_recognized :
  parse_command ∅ ("cat " +:+ String dquote ">" +:+ String dquote " out")
  = Some (mkCommand ["cat"] EmptyString "out" false false false)
  /\ parse_command ∅ ("sleep 5 " +:+ String dquote "&" +:+ String dquote EmptyString)
     = Some (mkCommand ["sleep"; "5"] EmptyString EmptyString false true false).
Proof. split; reflexivity. Qed.

(** C3 (amended): the text between two matching quotes, whatever operator
    characters it contains, is appended literally to the current token and
    a quoted [|] never splits the pipeline; and a token list in which no
    token is exactly [<], [>] or [>>] and whose last token is not exactly
    [&] is left untouched by the redirection and background passes. *)
Theorem quoted_operators_are_literal_text
    (q : ascii) (body rest : string) (st : scan_state)
    (cmd : Command) (tokens : list string) :
  (q = squote \/ q = dquote) ->
  open_quote_of st = None ->
  contains q body = false ->
  contains backslash body = false ->
  Forall (fun t => redirect_op t = false) tokens ->
  last tokens <> Some "&" ->
  scan (String q (body +:+ String q rest)) st = scan rest (add_string body st)
  /\ parse_redirection cmd tokens = (cmd, tokens)
  /\ parse_background cmd tokens = (cmd, tokens).
Proof.
  intros Hq Hst Hnq Hnb Hred Hbg. split; [|split].
  - by apply scan_quoted.
  - by apply parse_redirection_words.
  - by apply parse_background_other.
Qed.

Lemma quoted_operators_are_literal_text_witness :
  scan (String dquote ("a|b>c&d<e" +:+ String dquote EmptyString)) scan_init
  = scan EmptyString (add_string "a|b>c&d<e" scan_init)
  /\ parse_redirection new_Command ["echo"; "a|b>c&d<e"]
     = (new_Command, ["echo"; "a|b>c&d<e"])
  /\ parse_background new_Command ["echo"; "a|b>c&d<e"]
     = (new_Command, ["echo"; "a|b>c&d<e"]).
Proof.
  apply (quoted_operators_are_literal_text dquote "a|b>c&d<e" EmptyString scan_init
           new_Command ["echo"; "a|b>c&d<e"]).
  - by right.
  - reflexivity.
  - reflexivity.
  - reflexivity.
  - repeat constructor.
  - vm_compute. discriminate.
Defined.

(** C4, as stated, fails: [sort <] has a redirection operator without an
    operand, and it is parsed into a command whose arguments are [sort]
    and [<]. *)
Lemma missing_operand_is_parsed :
  ~ (forall (env : Env) (words : list string) (op : string),
        redirect_op op = true ->
        parse_single_command env (words ++ [op]) = None).
Proof.
  intros H. specialize (H ∅ ["sort"] "<" eq_refl).
  vm_compute in H. by discriminate H.
Qed.

(** C4 (amended): a redirection operator that is the last token of its
    segment has no operand; it is not a parse failure but is kept as the
    last literal argument, and no redirection is recorded for it. *)
Theorem trailing_redirection_is_an_argument
    (env : Env) (words : list string) (op : string) :
  redirect_op op = true ->
  Forall (fun t => redirect_op t = false) words ->
  parse_single_command env (words ++ [op])
  = Some (mkCommand (expand_variables env words ++ [op]) EmptyString EmptyString false false false).
Proof.
  intros Hop Hwords.
  assert (expand_variables_in_token env op = op) as Hexp.
  { unfold redirect_op in Hop.
    apply orb_prop in Hop as [[H | H]%orb_prop | H];
      apply String.eqb_eq in H; by subst. }
  assert (last (words ++ [op]) <> Some "&") as Hbg.
  { rewrite last_snoc. intros [= ->]. done. }
  destruct (words ++ [op]) as [|w ws] eqn:Heq; [by destruct words |].
  rewrite parse_single_command_words; [| | done].
  - rewrite <- Heq. unfold expand_variables.
    by rewrite List.map_app; cbn [List.map]; rewrite Hexp.
  - rewrite <- Heq. unfold parse_redirection.
    by rewrite parse_redirection_loop_words.
Qed.

Lemma trailing_redirection_is_an_argument_witness :
  parse_single_command ∅ (["sort"; "-r"] ++ [">>"])
  = Some (mkCommand (expand_variables ∅ ["sort"; "-r"] ++ [">>"])
                    EmptyString EmptyString false false false).
Proof.
  apply (trailing_redirection_is_an_argument ∅ ["sort"; "-r"] ">>").
  - reflexivity.
  - repeat constructor.
Defined.




(** C10, as stated, fails: in [a$-b] the [$] is followed by [-], the name
    is empty, and the output is [a-b]: the [$] is not emitted. *)
Lemma bare_dollar_is_dropped :
  expand_variables_in_token ∅ "a$-b" = "a-b"
  /\ expand_variables_in_token ∅ "a$-b" <> "a$-b".
Proof. split; [reflexivity | vm_compute; discriminate]. Qed.

(** C10 (amended): when a [$] is followed by a character that is neither
    [{] nor alphanumeric nor an underscore, the name is empty and the [$]
    is replaced by the value looked up for the empty name (the empty
    string when the environment has no such entry, so that the [$] is
    dropped); scanning continues with the character after the [$]. *)
Theorem bare_dollar_expands_the_empty_name
    (env : Env) (pre post : string) (c : ascii) :
  contains dollar pre = false ->
  isalnum c = false -> c <> underscore -> c <> lbrace ->
  expand_variables_in_token env (pre +:+ String dollar (String c post))
  = pre +:+ get_environment_variable env EmptyString
        +:+ expand_variables_in_token env (String c post)
  /\ (env !! EmptyString = None ->
      expand_variables_in_token env (pre +:+ String dollar (String c post))
      = pre +:+ expand_variables_in_token env (String c post)).
Proof.
  intros Hpre Halnum Hus Hlb.
  assert (expand_variables_in_token env (pre +:+ String dollar (String c post))
          = pre +:+ get_environment_variable env EmptyString
                +:+ expand_variables_in_token env (String c post)) as Heq.
  { rewrite expand_app_no_dollar by done. f_equal.
    cbn [expand_variables_in_token].
    change (Ascii.eqb dollar dollar) with true. cbv iota.
    destruct (Ascii.eqb_spec c lbrace); [done |].
    rewrite Halnum.
    destruct (Ascii.eqb_spec c underscore); [done |].
    done. }
  split; [done |].
  intros Hnone. rewrite Heq. unfold get_environment_variable.
  by rewrite Hnone.
Qed.

Lemma bare_dollar_expands_the_empty_name_witness :
  expand_variables_in_token ∅ ("a" +:+ String dollar (String "-" "b"))
  = "a" +:+ get_environment_variable ∅ EmptyString
        +:+ expand_variables_in_token ∅ (String "-" "b")
  /\ ((∅ : Env) !! EmptyString = None ->
      expand_variables_in_token ∅ ("a" +:+ String dollar (String "-" "b"))
      = "a" +:+ expand_variables_in_token ∅ (String "-" "b")).
Proof.
  apply (bare_dollar_expands_the_empty_name ∅ "a" "b" "-"%char).
  - reflexivity.
  - reflexivity.
  - discriminate.
  - discriminate.
Defined.

End ParserClaims.

(** ** Executable resolution *)

Module ResolutionFacts.
Import Chars OS ProcessManager StringFacts ResolutionSpec.

Lemma is_executable_spec w path :
  is_executable w path = true <-> executable_file w path.
Proof.
  unfold is_executable, executable_file, has_exec_bit.
  destruct (files w !! path) as [m|]; split.
  - intros H. exists m. split; [done |].
    apply orb_prop in H as [[H | H]%orb_prop | H];
      apply negb_true_iff, Z.eqb_neq in H; tauto.
  - intros (m' & [= <-] & H).
    destruct H as [H | [H | H]]; apply Z.eqb_neq in H; rewrite H;
      by rewrite ?orb_true_r.
  - done.
  - by intros (m' & ? & _).
Qed.

Lemma split_path_component : forall d rest cur path_dirs,
  contains colon d = false ->
  split_path (d +:+ rest) cur path_dirs = split_path rest (cur +:+ d) path_dirs.
Proof.
  induction d as [|c d IH]; intros rest cur path_dirs Hd.
  - by rewrite string_app_nil_r.
  - apply orb_false_elim in Hd as [Hc Hd].
    rewrite string_app_cons. cbn [split_path]. rewrite Hc, IH by done.
    by rewrite push_back_app.
Qed.

Lemma split_path_join : forall dirs cur path_dirs,
  Forall (fun d => contains colon d = false) dirs ->
  split_path (join_path dirs) cur path_dirs
  = path_dirs ++ nonempty_dirs match dirs with
                               | [] => [cur]
                               | d :: ds => (cur +:+ d) :: ds
                               end.
Proof.
  induction dirs as [|d ds IH]; intros cur path_dirs Hall.
  - cbn. destruct (empty cur); cbn; [by rewrite (right_id_L [] (++)) | done].
  - pose proof (Forall_inv Hall) as Hd. apply Forall_inv_tail in Hall.
    destruct ds as [|d2 ds].
    + cbn [join_path]. rewrite <- (string_app_nil_r d) at 1.
      rewrite split_path_component by done. cbn.
      destruct (empty (cur +:+ d)); cbn; [by rewrite (right_id_L [] (++)) | done].
    + change (join_path (d :: d2 :: ds))
        with (d +:+ String colon (join_path (d2 :: ds))).
      rewrite split_path_component by done. cbn [split_path].
      change (Ascii.eqb colon colon) with true. cbv iota.
      rewrite IH by done. rewrite string_app_nil_l.
      unfold nonempty_dirs. cbn [List.filter].
      destruct (empty (cur +:+ d)); cbn [negb]; [done |].
      by rewrite <- (assoc_L (++)).
Qed.

Lemma search_dirs_first_match w name : forall pre d post,
  Forall (fun p => is_executable w (p +:+ "/" +:+ name) = false) pre ->
  is_executable w (d +:+ "/" +:+ name) = true ->
  search_dirs w name (pre ++ d :: post) = d +:+ "/" +:+ name.
Proof.
  induction pre as [|p pre IH]; intros d post Hpre Hd; cbn [app search_dirs].
  - by rewrite Hd.
  - rewrite (Forall_inv Hpre). apply IH; [|done].
    by apply Forall_inv_tail in Hpre.
Qed.

Lemma nonempty_dirs_app a b :
  nonempty_dirs (a ++ b) = nonempty_dirs a ++ nonempty_dirs b.
Proof. unfold nonempty_dirs. apply List.filter_app. Qed.

End ResolutionFacts.

Module ResolutionClaims.
Import Chars OS ProcessManager StringFacts ResolutionSpec ResolutionFacts.

(** C7, as stated, fails: an empty component of PATH (here the one before
    the leading colon of [:/a:/b]) is not a directory of the search.  The
    candidate that joins it to the name, [/tool], exists and is executable:
    it is the first candidate in PATH order that is, and yet resolution
    returns the candidate of a later component. *)
Lemma empty_path_entry_is_skipped :
  environ Demo.colon_machine !! "PATH"
  = Some (join_path [EmptyString; "/a"; "/b"])
  /\ executable_file Demo.colon_machine (EmptyString +:+ "/" +:+ "tool")
  /\ find_executable Demo.colon_machine "tool" = "/b/tool"
  /\ find_executable Demo.colon_machine "tool" <> EmptyString +:+ "/" +:+ "tool".
Proof.
  split; [reflexivity |]. split; [|split; [reflexivity | discriminate]].
  exists 493. split; [reflexivity |]. left. by vm_compute.
Qed.

(** C7, amended: for a command name without a slash, when PATH lists the
    components [pre ++ d :: post] separated by colons, [d] is not empty, no
    non-empty component of [pre] has a candidate that is an existing file
    with an executable bit, and the candidate in [d] is one, resolution
    returns the candidate in [d]: among the non-empty components the first
    match in PATH order wins, and the empty components are passed over,
    whatever their candidates are. *)
Theorem search_path_first_match_wins
    (w : World) (name : string) (pre : list string) (d : string)
    (post : list string) :
  contains slash name = false ->
  environ w !! "PATH" = Some (join_path (pre ++ d :: post)) ->
  Forall (fun p => contains colon p = false) (pre ++ d :: post) ->
  d <> EmptyString ->
  Forall (fun p => p <> EmptyString ->
                   ~ executable_file w (p +:+ "/" +:+ name)) pre ->
  executable_file w (d +:+ "/" +:+ name) ->
  find_executable w name = d +:+ "/" +:+ name.
Proof.
  intros Hname Hpath Hcolon Hd Hpre Hexec.
  unfold find_executable, search_path. rewrite Hname, Hpath.
  rewrite split_path_join by done.
  assert (nonempty_dirs match pre ++ d :: post with
                        | [] => [EmptyString]
                        | d0 :: ds => (EmptyString +:+ d0) :: ds
                        end
          = nonempty_dirs pre ++ d :: nonempty_dirs post) as ->.
  { replace (match pre ++ d :: post with
             | [] => [EmptyString]
             | d0 :: ds => (EmptyString +:+ d0) :: ds
             end) with (pre ++ d :: post) by (by destruct pre).
    rewrite nonempty_dirs_app. f_equal.
    unfold nonempty_dirs. cbn [List.filter].
    by destruct d. }
  rewrite app_nil_l. apply search_dirs_first_match.
  - unfold nonempty_dirs. apply List.Forall_forall.
    intros p [Hp Hne]%List.filter_In.
    rewrite List.Forall_forall in Hpre. specialize (Hpre p Hp).
    destruct (is_executable w (p +:+ "/" +:+ name)) eqn:E; [|done].
    apply is_executable_spec in E. destruct Hpre; [|done].
    by destruct p.
  - by apply is_executable_spec.
Qed.

Lemma search_path_first_match_wins_witness :
  find_executable Demo.colon_machine "tool" = "/b" +:+ "/" +:+ "tool".
Proof.
  apply (search_path_first_match_wins Demo.colon_machine "tool"
           [EmptyString; "/a"] "/b" []).
  - reflexivity.
  - reflexivity.
  - repeat constructor.
  - discriminate.
  - constructor; [|constructor; [|constructor]].
    + intros Hne. by destruct Hne.
    + intros _ (m & Hm & Hbit). vm_compute in Hm. injection Hm as <-.
      destruct Hbit as [H | [H | H]]; by vm_compute in H.
  - exists 493. split; [reflexivity |]. left. by vm_compute.
Defined.




End ResolutionClaims.

(** ** The background registry *)

Module RegistryFacts.
Import OS ProcessManager RegistrySpec.

Lemma log_all_nil w : log_all [] w = w.
Proof. destruct w. unfold log_all, set_trace; cbn. by rewrite (right_id_L [] (++)). Qed.

Lemma sweep_cons p more acc s :
  sweep (p :: more) acc s
  = let '(acc', s1) := poll_step p acc s in sweep more acc' s1.
Proof.
  cbn [sweep]. unfold poll_step, mbind, M_bind, bind, sys, waitpid_nohang, emit.
  destruct (procs (os s) !! p) as [[st fin]|]; cbn; [|done].
  destruct fin; cbn; [|done].
  destruct st as [code | sig |]; cbn; rewrite ?log_all_nil; try done.
  destruct (code =? 0); cbn; by rewrite ?log_all_nil.
Qed.

Lemma reports_of_app pid t1 t2 :
  reports_of pid (t1 ++ t2) = reports_of pid t1 ++ reports_of pid t2.
Proof. apply List.filter_app. Qed.

Lemma reports_of_expected_same pid st :
  reports_of pid (expected_report pid st) = expected_report pid st.
Proof.
  destruct st as [code | sig |]; cbn; [|by rewrite Z.eqb_refl | done].
  destruct (code =? 0); cbn; [done | by rewrite Z.eqb_refl].
Qed.

Lemma reports_of_expected_other pid p st :
  p <> pid -> reports_of pid (expected_report p st) = [].
Proof.
  intros Hne%Z.eqb_neq.
  destruct st as [code | sig |]; cbn; [|by rewrite Hne | done].
  destruct (code =? 0); cbn; [done | by rewrite Hne].
Qed.

Lemma polled_app t1 t2 : polled (t1 ++ t2) = polled t1 ++ polled t2.
Proof. apply omap_app. Qed.

Lemma reports_of_poll pid p t : reports_of pid (EPoll p :: t) = reports_of pid t.
Proof. done. Qed.

Lemma reports_of_nil pid : reports_of pid [] = [].
Proof. done. Qed.

Lemma polled_poll p t : polled (EPoll p :: t) = p :: polled t.
Proof. done. Qed.

Lemma polled_nil : polled [] = [].
Proof. done. Qed.

Lemma polled_expected p st : polled (expected_report p st) = [].
Proof. destruct st as [code | sig |]; cbn; [by destruct (code =? 0) | done | done]. Qed.

(** The effect of one iteration on the trace, the table and the registry. *)
Lemma poll_step_spec p acc s acc1 s1 :
  poll_step p acc s = (acc1, s1) ->
  background_processes_ s1 = background_processes_ s
  /\ match procs (os s) !! p with
     | Some ch =>
         if finished ch
         then acc1 = acc
              /\ trace (os s1) = trace (os s) ++ EPoll p :: expected_report p (fate ch)
              /\ procs (os s1) = delete p (procs (os s))
         else acc1 = acc ++ [p]
              /\ trace (os s1) = trace (os s) ++ [EPoll p]
              /\ procs (os s1) = procs (os s)
     | None =>
         acc1 = acc
         /\ trace (os s1) = trace (os s) ++ [EPoll p]
         /\ procs (os s1) = procs (os s)
     end.
Proof.
  unfold poll_step.
  destruct (procs (os s) !! p) as [ch|]; [destruct (finished ch)|];
    intros [= <- <-]; cbn; repeat split; try done.
  by rewrite <- (assoc_L (++)).
Qed.

Lemma sweep_spec pid : forall pids acc s r s',
  sweep pids acc s = (r, s') ->
  reports_of pid (trace (os s'))
  = reports_of pid (trace (os s)) ++ sweep_reports pid pids (procs (os s) !! pid)
  /\ (pid ∈ r <->
      pid ∈ acc \/ (pid ∈ pids /\ exists ch, procs (os s) !! pid = Some ch
                                          /\ finished ch = false))
  /\ polled (trace (os s')) = polled (trace (os s)) ++ pids
  /\ background_processes_ s' = background_processes_ s.
Proof.
  induction pids as [|p more IH]; intros acc s r s' Hsweep.
  - cbn in Hsweep. injection Hsweep as <- <-.
    repeat split; try done.
    + unfold sweep_reports. destruct (procs (os s) !! pid); [|by rewrite (right_id_L [] (++))].
      rewrite bool_decide_eq_false_2 by apply not_elem_of_nil.
      by rewrite andb_false_r, (right_id_L [] (++)).
    + by left.
    + intros [H | [H _]]; [done | by apply elem_of_nil in H].
    + by rewrite (right_id_L [] (++)).
  - rewrite sweep_cons in Hsweep.
    destruct (poll_step p acc s) as [acc1 s1] eqn:Hstep.
    apply poll_step_spec in Hstep as [Hbg Hstep].
    apply IH in Hsweep as (Hrep & Hmem & Hpoll & Hbg').
    rewrite Hrep, Hmem, Hpoll, Hbg', Hbg. clear Hrep Hmem Hpoll Hbg' Hbg IH.
    destruct (decide (p = pid)) as [-> | Hne].
    + (* the iteration polls [pid] itself *)
      destruct (procs (os s) !! pid) as [ch|] eqn:Hp;
        [destruct (finished ch) eqn:Hfin|];
        destruct Hstep as (-> & -> & ->).
      * rewrite lookup_delete_eq. cbn [sweep_reports].
        rewrite Hfin, bool_decide_eq_true_2 by left. cbn [andb].
        rewrite reports_of_app, reports_of_poll, reports_of_expected_same.
        rewrite (right_id_L [] (++)).
        rewrite polled_app, polled_poll, polled_expected.
        repeat split; try done.
        -- intros [H | (_ & ch' & H & _)]; [by left | done].
        -- intros [H | (_ & ch' & [= <-] & H)]; [by left | congruence].
        -- by rewrite <- (assoc_L (++)).
      * rewrite Hp. cbn [sweep_reports]. rewrite Hfin. cbn [andb].
        rewrite reports_of_app, reports_of_poll, reports_of_nil.
        rewrite !(right_id_L [] (++)).
        rewrite polled_app, polled_poll, polled_nil.
        repeat split; try done.
        -- intros [H | H]; [|right; split; [left | eauto]].
           apply elem_of_app in H as [H | H]; [by left |].
           right. split; [left | eauto].
        -- intros _. left. apply elem_of_app. right. left.
        -- by rewrite <- (assoc_L (++)).
      * rewrite Hp. cbn [sweep_reports].
        rewrite reports_of_app, reports_of_poll, reports_of_nil.
        rewrite !(right_id_L [] (++)).
        rewrite polled_app, polled_poll, polled_nil.
        repeat split; try done.
        -- intros [H | (_ & ch' & H & _)]; [by left | done].
        -- intros [H | (_ & ch' & H & _)]; [by left | done].
        -- by rewrite <- (assoc_L (++)).
    + (* the iteration polls another pid *)
      assert (forall entry, sweep_reports pid (p :: more) entry
                            = sweep_reports pid more entry) as Hsr.
      { intros [ch|]; [|done]. cbn [sweep_reports].
        destruct (decide (pid ∈ more)) as [Hin | Hnin].
        - rewrite !bool_decide_eq_true_2; [done | done | by right].
        - rewrite !bool_decide_eq_false_2; [done | done |].
          intros [? | ?]%elem_of_cons; congruence. }
      assert (forall P : Prop, (pid ∈ p :: more /\ P) <-> (pid ∈ more /\ P)) as Hin.
      { intros P. rewrite elem_of_cons. split; [|tauto].
        intros [[? | ?] ?]; [congruence | done]. }
      rewrite Hsr, Hin. clear Hsr Hin.
      destruct (procs (os s) !! p) as [ch|] eqn:Hp;
        [destruct (finished ch) eqn:Hfin|];
        destruct Hstep as (-> & -> & ->).
      * rewrite lookup_delete_ne by done.
        rewrite reports_of_app, reports_of_poll, reports_of_expected_other by done.
        rewrite (right_id_L [] (++)).
        rewrite polled_app, polled_poll, polled_expected.
        repeat split; try done; try tauto.
        by rewrite <- (assoc_L (++)).
      * rewrite reports_of_app, reports_of_poll, reports_of_nil.
        rewrite (right_id_L [] (++)).
        rewrite polled_app, polled_poll, polled_nil.
        repeat split; try done.
        -- intros [H | H]; [|by right].
           apply elem_of_app in H as [H | H]; [by left |].
           apply list_elem_of_singleton in H. congruence.
        -- intros [H | H]; [|by right]. left. apply elem_of_app. by left.
        -- by rewrite <- (assoc_L (++)).
      * rewrite reports_of_app, reports_of_poll, reports_of_nil.
        rewrite (right_id_L [] (++)).
        rewrite polled_app, polled_poll, polled_nil.
        repeat split; try done; try tauto.
        by rewrite <- (assoc_L (++)).
Qed.

End RegistryFacts.

Module RegistryClaims.
Import OS ProcessManager RegistrySpec RegistryFacts.

(** C9, as stated, fails: a tracked child that has exited with status 0 is
    removed by the sweep, and nothing is reported about it. *)
Lemma zero_exit_is_reaped_silently :
  let s := mkPM (set_procs {[ 5 := mkChild (WExited 0) true ]} Demo.machine) [5] in
  background_processes_ (cleanup_finished_processes s).2 = []
  /\ reports_of 5 (trace (os (cleanup_finished_processes s).2)) = [].
Proof. split; reflexivity. Qed.

(** C9 (amended): for a tracked background pid that is a child not yet
    reaped, one sweep retains it if it is still running and reports nothing
    about it; if it has terminated, the sweep removes it and reports it
    exactly once when it exited with a non-zero status or was killed by a
    signal (an exit with status 0 is removed without a report); a second
    sweep then neither polls the pid nor reports anything about it. *)
Theorem sweep_reaps_a_terminated_pid_once (s : PM) (pid : Z) (ch : child) :
  pid ∈ background_processes_ s ->
  procs (os s) !! pid = Some ch ->
  let s1 := (cleanup_finished_processes s).2 in
  (pid ∈ background_processes_ s1 <-> finished ch = false)
  /\ reports_of pid (trace (os s1))
     = reports_of pid (trace (os s))
       ++ (if finished ch then expected_report pid (fate ch) else [])
  /\ (finished ch = true ->
      forall s2 : PM,
        background_processes_ s2 = background_processes_ s1 ->
        let s3 := (cleanup_finished_processes s2).2 in
        (pid ∉ background_processes_ s3)
        /\ reports_of pid (trace (os s3)) = reports_of pid (trace (os s2))
        /\ polled (trace (os s3))
           = polled (trace (os s2)) ++ background_processes_ s1
        /\ (pid ∉ background_processes_ s1)).
Proof.
  intros Hin Hp. unfold cleanup_finished_processes.
  destruct (sweep (background_processes_ s) [] s) as [r s'] eqn:Hsweep.
  apply (sweep_spec pid) in Hsweep as (Hrep & Hmem & _ & _).
  cbn [snd os background_processes_].
  rewrite Hp in Hrep, Hmem. cbn [sweep_reports] in Hrep.
  rewrite bool_decide_eq_true_2, andb_true_r in Hrep by done.
  assert (pid ∈ r <-> finished ch = false) as Hr.
  { rewrite Hmem. split.
    - intros [H | (_ & ch' & [= <-] & H)]; [by apply elem_of_nil in H | done].
    - intros H. right. eauto. }
  split; [done |]. split; [done |].
  intros Hfin s2 Hbg.
  assert (pid ∉ r) as Hnot by (rewrite Hr; congruence).
  destruct (sweep (background_processes_ s2) [] s2) as [r2 s2'] eqn:Hsweep2.
  apply (sweep_spec pid) in Hsweep2 as (Hrep2 & Hmem2 & Hpoll2 & _).
  cbn [snd os background_processes_]. rewrite Hbg in *.
  repeat split; try done.
  - rewrite Hmem2. intros [H | [H _]]; [by apply elem_of_nil in H | done].
  - rewrite Hrep2. unfold sweep_reports.
    destruct (procs (os s2) !! pid); [|by rewrite (right_id_L [] (++))].
    rewrite (bool_decide_eq_false_2 _ Hnot), andb_false_r.
    by rewrite (right_id_L [] (++)).
Qed.

Lemma sweep_reaps_a_terminated_pid_once_witness :
  let s := mkPM (set_procs {[ 5 := mkChild (WSignaled 9) true ]} Demo.machine) [5] in
  let s1 := (cleanup_finished_processes s).2 in
  (5 ∈ background_processes_ s1 <-> finished (mkChild (WSignaled 9) true) = false)
  /\ reports_of 5 (trace (os s1))
     = reports_of 5 (trace (os s))
       ++ (if finished (mkChild (WSignaled 9) true)
           then expected_report 5 (fate (mkChild (WSignaled 9) true)) else [])
  /\ (finished (mkChild (WSignaled 9) true) = true ->
      forall s2 : PM,
        background_processes_ s2 = background_processes_ s1 ->
        let s3 := (cleanup_finished_processes s2).2 in
        (5 ∉ background_processes_ s3)
        /\ reports_of 5 (trace (os s3)) = reports_of 5 (trace (os s2))
        /\ polled (trace (os s3))
           = polled (trace (os s2)) ++ background_processes_ s1
        /\ (5 ∉ background_processes_ s1)).
Proof.
  apply (sweep_reaps_a_terminated_pid_once
           (mkPM (set_procs {[ 5 := mkChild (WSignaled 9) true ]} Demo.machine) [5])
           5 (mkChild (WSignaled 9) true)).
  - by left.
  - reflexivity.
Defined.

End RegistryClaims.

(** ** The pipeline orchestrator *)

Module PipelineFacts.
Import OS ProcessManager PipelineSpec.

Lemma exec_external_command_frame w w' command :
  environ w = environ w' -> files w = files w' ->
  open_ok w = open_ok w' -> execvp_ok w = execvp_ok w' ->
  exec_external_command w command = exec_external_command w' command.
Proof.
  intros He Hf Ho Hx.
  assert (forall p, is_executable w p = is_executable w' p) as Hie.
  { intros p0. unfold is_executable. by rewrite Hf. }
  assert (forall n dirs, search_dirs w n dirs = search_dirs w' n dirs) as Hsd.
  { intros n dirs. induction dirs as [|d dirs IH]; [done |].
    cbn [search_dirs]. by rewrite Hie, IH. }
  unfold exec_external_command, setup_io_redirection, find_executable, search_path.
  rewrite He, Ho, Hx.
  destruct (arguments command) as [|n args]; [done |].
  rewrite Hie. destruct (environ w' !! "PATH"); [by rewrite Hsd | done].
Qed.

Lemma spawned_frame w w' cmds kids :
  environ w = environ w' -> files w = files w' ->
  open_ok w = open_ok w' -> execvp_ok w = execvp_ok w' ->
  spawned w cmds kids = spawned w' cmds kids.
Proof.
  intros He Hf Ho Hx. revert kids.
  induction cmds as [|c cmds IH]; intros [|[pid st] kids]; cbn [spawned]; try done.
  unfold child_fate.
  by rewrite IH, (exec_external_command_frame w w') by done.
Qed.

Lemma world_with_id w :
  world_with w (fork_script w) (pipe_script w) (procs w) (trace w) = w.
Proof. by destruct w. Qed.

Lemma create_pipes_ok : forall pipes pipe_fds s rest,
  pipe_script (os s) = List.map Some pipes ++ rest ->
  create_pipes (length pipes) pipe_fds s
  = (Some (pipe_fds ++ pipe_ends pipes),
     mkPM (world_with (os s) (fork_script (os s)) rest (procs (os s))
                      (trace (os s) ++ pipe_events pipes))
          (background_processes_ s)).
Proof.
  induction pipes as [|[rd wr] pipes IH]; intros pipe_fds s rest Hscript.
  - cbn in Hscript. cbn. unfold pipe_ends, pipe_events. cbn.
    rewrite !(right_id_L [] (++)), <- Hscript, world_with_id. by destruct s.
  - cbn [length create_pipes].
    unfold mbind, M_bind, bind, sys, pipe. rewrite Hscript. cbn [List.map app].
    cbn beta iota.
    rewrite IH with (rest := rest) by done.
    cbn. unfold pipe_ends, pipe_events, world_with. cbn.
    by rewrite <- !(assoc_L (++)).
Qed.

Lemma fork_children_ok : forall cmds kids i size pipe_fds child_pids s rest,
  fork_script (os s) = List.map Some kids ++ rest ->
  length kids = length cmds ->
  fork_children i size pipe_fds cmds child_pids s
  = (Some (child_pids ++ List.map fst (spawned (os s) cmds kids)),
     mkPM (world_with (os s) rest (pipe_script (os s))
             (register (spawned (os s) cmds kids) (procs (os s)))
             (trace (os s)
              ++ fork_events i size pipe_fds
                   (List.map fst (spawned (os s) cmds kids))))
          (background_processes_ s)).
Proof.
  induction cmds as [|command cmds IH];
    intros [|[pid st] kids] i size pipe_fds child_pids s rest Hscript Hlen;
    try done.
  - cbn in Hscript. cbn. rewrite !(right_id_L [] (++)), <- Hscript, world_with_id.
    by destruct s.
  - cbn [fork_children].
    unfold mbind, M_bind, bind, sys, world, fork. rewrite Hscript.
    cbn [List.map app]. cbn beta iota.
    change (Z.pos pid <? 0) with false. cbv iota.
    rewrite IH with (kids := kids) (rest := rest); [| done | by injection Hlen].
    cbn [os background_processes_].
    rewrite (spawned_frame _ (os s)) by done.
    cbn [spawned List.map fork_events register foldl fst snd].
    unfold world_with, child_fate. cbn.
    by rewrite <- !(assoc_L (++)).
Qed.

Lemma close_all_ok : forall fds s,
  close_all fds s
  = (tt, mkPM (world_with (os s) (fork_script (os s)) (pipe_script (os s))
                 (procs (os s)) (trace (os s) ++ List.map EClose fds))
              (background_processes_ s)).
Proof.
  induction fds as [|fd fds IH]; intros s.
  - cbn. rewrite (right_id_L [] (++)), world_with_id. by destruct s.
  - cbn [close_all]. unfold mbind, M_bind, bind, sys. cbn beta iota.
    rewrite IH. cbn. unfold world_with. cbn.
    by rewrite <- !(assoc_L (++)).
Qed.

Lemma wait_children_ok : forall kids back final_status s,
  NoDup (List.map fst kids) ->
  (forall p f, (p, f) ∈ kids -> exists b, procs (os s) !! p = Some (mkChild f b)) ->
  exists s',
    wait_children back (List.map fst kids) final_status s
    = (fold_status back kids final_status, s')
    /\ trace (os s') = trace (os s) ++ List.map EWait (List.map fst kids).
Proof.
  induction kids as [|[p f] kids IH]; intros back final_status s Hnd Hprocs.
  - exists s. cbn. by rewrite (right_id_L [] (++)).
  - cbn [List.map fst] in Hnd. apply NoDup_cons in Hnd as [Hp Hnd].
    destruct (Hprocs p f) as [b Hpf]; [by left |].
    cbn [List.map fst wait_children].
    unfold mbind, M_bind, bind, sys, waitpid. rewrite Hpf. cbn beta iota.
    cbn [fate].
    edestruct (IH back (if p =? back then status_of f final_status else final_status)
                 (mkPM (log (EWait p) (set_procs (delete p (procs (os s))) (os s)))
                       (background_processes_ s)))
      as (s' & Hrun & Htrace); [done | |].
    { intros p' f' Hin. cbn.
      destruct (Hprocs p' f') as [b' Hb']; [by right |].
      exists b'. rewrite lookup_delete_ne; [done |].
      intros ->. apply Hp. apply list_elem_of_fmap. by exists (p', f'). }
    exists s'. split; [done |].
    rewrite Htrace. cbn. by rewrite <- (assoc_L (++)).
Qed.

Lemma register_lookup : forall kids m p f,
  NoDup (List.map fst kids) ->
  (p, f) ∈ kids ->
  register kids m !! p = Some (mkChild f false).
Proof.
  unfold register.
  induction kids as [|[p0 f0] kids IH]; intros m p f Hnd Hin.
  - by apply elem_of_nil in Hin.
  - cbn [List.map fst] in Hnd. apply NoDup_cons in Hnd as [Hp0 Hnd].
    cbn [foldl fst snd].
    apply elem_of_cons in Hin as [[= -> ->] | Hin]; [|by apply IH].
    clear IH. revert m. induction kids as [|[p1 f1] kids IH]; intros m.
    + cbn. by rewrite lookup_insert_eq.
    + cbn [foldl fst snd]. cbn [List.map fst] in Hp0, Hnd.
      apply NoDup_cons in Hnd as [_ Hnd].
      apply not_elem_of_cons in Hp0 as [Hne Hp0].
      rewrite insert_insert_ne by done. by apply IH.
Qed.

Lemma fold_status_other : forall kids back final_status,
  back ∉ List.map fst kids ->
  fold_status back kids final_status = final_status.
Proof.
  unfold fold_status.
  induction kids as [|[p f] kids IH]; intros back final_status Hnot; [done |].
  cbn [List.map fst] in Hnot. apply not_elem_of_cons in Hnot as [Hne Hnot].
  cbn [foldl fst snd].
  destruct (Z.eqb_spec p back); [congruence |]. by apply IH.
Qed.

Lemma fold_status_last kids p f :
  NoDup (List.map fst (kids ++ [(p, f)])) ->
  fold_status p (kids ++ [(p, f)]) 0 = status_of f 0.
Proof.
  intros Hnd. rewrite List.map_app in Hnd. apply NoDup_app in Hnd as (_ & Hdis & _).
  unfold fold_status. rewrite foldl_app. cbn [foldl fst snd].
  rewrite Z.eqb_refl. fold (fold_status p kids 0).
  rewrite fold_status_other; [done |].
  intros Hin. apply (Hdis p Hin). by left.
Qed.

Lemma spawned_length : forall w cmds kids,
  length kids = length cmds -> length (spawned w cmds kids) = length cmds.
Proof.
  induction cmds as [|c cmds IH]; intros [|[pid st] kids] Hlen; try done.
  cbn. f_equal. apply IH. by injection Hlen.
Qed.

Lemma spawned_pids : forall w cmds kids,
  length kids = length cmds ->
  List.map fst (spawned w cmds kids) = List.map (fun kid => Z.pos kid.1) kids.
Proof.
  induction cmds as [|c cmds IH]; intros [|[pid st] kids] Hlen; try done.
  cbn. f_equal. apply IH. by injection Hlen.
Qed.

Lemma spawned_snoc : forall w cmds kids command pid st,
  length kids = length cmds ->
  spawned w (cmds ++ [command]) (kids ++ [(pid, st)])
  = spawned w cmds kids ++ [(Z.pos pid, child_fate w command st)].
Proof.
  induction cmds as [|c cmds IH]; intros [|[pid0 st0] kids] command pid st Hlen;
    try done.
  cbn. f_equal. apply IH. by injection Hlen.
Qed.

(** *** System calls in the four parts of the trace *)

Lemma count_app p t1 t2 : count p (t1 ++ t2) = (count p t1 + count p t2)%nat.
Proof. unfold count. by rewrite List.filter_app, length_app. Qed.

Lemma forked_app t1 t2 : forked (t1 ++ t2) = forked t1 ++ forked t2.
Proof. apply omap_app. Qed.

Lemma waited_app t1 t2 : waited (t1 ++ t2) = waited t1 ++ waited t2.
Proof. apply omap_app. Qed.

Lemma omap_map_none {A B C} (f : B -> option C) (g : A -> B) (l : list A) :
  (forall x, f (g x) = None) -> omap f (List.map g l) = [].
Proof.
  intros H. induction l as [|x l IH]; [done |].
  cbn [List.map]. change (omap f (g x :: List.map g l))
    with (match f (g x) with
          | Some y => y :: omap f (List.map g l)
          | None => omap f (List.map g l)
          end).
  by rewrite H.
Qed.

Lemma count_map_false {A} (p : event -> bool) (g : A -> event) (l : list A) :
  (forall x, p (g x) = false) -> count p (List.map g l) = 0%nat.
Proof.
  intros H. unfold count. induction l as [|x l IH]; [done |].
  cbn [List.map List.filter]. by rewrite H.
Qed.

Lemma count_pipe_events pipes : count is_pipe (pipe_events pipes) = length pipes.
Proof.
  unfold count, pipe_events. induction pipes as [|rw pipes IH]; [done |].
  cbn. by rewrite IH.
Qed.

Lemma fork_events_forked : forall pids i size fds,
  forked (fork_events i size fds pids) = pids.
Proof.
  induction pids as [|p pids IH]; intros i size fds; [done |].
  cbn. by rewrite IH.
Qed.

Lemma fork_events_waited : forall pids i size fds,
  waited (fork_events i size fds pids) = [].
Proof.
  induction pids as [|p pids IH]; intros i size fds; [done |].
  cbn. by rewrite IH.
Qed.

Lemma fork_events_pipes : forall pids i size fds,
  count is_pipe (fork_events i size fds pids) = 0%nat.
Proof.
  unfold count.
  induction pids as [|p pids IH]; intros i size fds; [done |].
  cbn. by rewrite IH.
Qed.

Lemma waited_cons_wait p t : waited (EWait p :: t) = p :: waited t.
Proof. done. Qed.

Lemma waited_waits pids : waited (List.map EWait pids) = pids.
Proof.
  induction pids as [|p pids IH]; [done |].
  cbn [List.map]. by rewrite waited_cons_wait, IH.
Qed.

End PipelineFacts.

Module PipelineClaims.
Import OS ProcessManager PipelineSpec PipelineFacts.

(** C8: when [execute_pipeline_internal] is given N >= 2 commands and its
    N-1 calls of pipe and N calls of fork succeed (the forks yielding
    distinct pids), it creates exactly N-1 pipes, forks exactly the N
    children, waits for exactly these N children, and returns the status of
    the last stage only: its exit code, or 128 plus the signal number when
    it was killed by a signal, whatever the earlier stages end with. *)
Theorem pipeline_status_is_that_of_the_last_stage
    (pipeline : list Command) (s : PM)
    (pipes : list (Z * Z)) (pipes_left : list (option (Z * Z)))
    (kids : list (positive * wstatus))
    (forks_left : list (option (positive * wstatus)))
    (last_command : Command) (last_pid : positive) (last_status : wstatus) :
  (2 <= length pipeline)%nat ->
  pipe_script (os s) = List.map Some pipes ++ pipes_left ->
  length pipes = (length pipeline - 1)%nat ->
  fork_script (os s) = List.map Some kids ++ forks_left ->
  length kids = length pipeline ->
  NoDup (List.map fst kids) ->
  last pipeline = Some last_command ->
  last kids = Some (last_pid, last_status) ->
  exists (s' : PM) (new : list event),
    execute_pipeline_internal pipeline s
    = (match (if exec_external_command (os s) last_command
              then last_status else WExited 127) with
       | WExited code => code
       | WSignaled sig => 128 + sig
       | WOther => 0
       end, s')
    /\ trace (os s') = trace (os s) ++ new
    /\ count is_pipe new = (length pipeline - 1)%nat
    /\ forked new = List.map (fun kid => Z.pos kid.1) kids
    /\ waited new = List.map (fun kid => Z.pos kid.1) kids
    /\ length (forked new) = length pipeline.
Proof.
  intros HN Hpipes Hnp Hforks Hnk Hnd Hlastc Hlastk.
  apply last_Some in Hlastc as [cmds ->].
  apply last_Some in Hlastk as [kids0 ->].
  assert (length kids0 = length cmds) as Hlen0.
  { rewrite !length_app in Hnk. cbn in Hnk. lia. }
  unfold execute_pipeline_internal.
  unfold mbind at 1. unfold M_bind at 1. unfold bind at 1.
  rewrite <- Hnp, (create_pipes_ok pipes [] s pipes_left Hpipes).
  unfold mbind at 1. unfold M_bind at 1. unfold bind at 1.
  rewrite (fork_children_ok _ (kids0 ++ [(last_pid, last_status)]) _ _ _ _ _ forks_left)
    by done.
  cbn [os background_processes_ world_with environ files open_ok execvp_ok
       fork_script pipe_script procs cwd trace].
  rewrite (spawned_frame _ (os s)) by done.
  unfold mbind at 1. unfold M_bind at 1. unfold bind at 1.
  rewrite close_all_ok.
  cbn [os background_processes_ world_with environ files open_ok execvp_ok
       fork_script pipe_script procs cwd trace].
  set (born := spawned (os s) (cmds ++ [last_command])
                 (kids0 ++ [(last_pid, last_status)])).
  assert (born = spawned (os s) cmds kids0
                 ++ [(Z.pos last_pid, child_fate (os s) last_command last_status)])
    as Hborn by (by apply spawned_snoc).
  assert (List.map fst born
          = List.map (fun kid => Z.pos kid.1) (kids0 ++ [(last_pid, last_status)]))
    as Hpids by (by apply spawned_pids).
  assert (NoDup (List.map fst born)) as Hndb.
  { rewrite Hpids.
    replace (List.map (fun kid : positive * wstatus => Z.pos kid.1)
               (kids0 ++ [(last_pid, last_status)]))
      with (Z.pos <$> (List.map fst (kids0 ++ [(last_pid, last_status)]))).
    - apply NoDup_fmap_2; [|done]. intros x y [= ->]. done.
    - by rewrite List.map_map. }
  rewrite app_nil_l.
  assert (List.last (List.map fst born) 0 = Z.pos last_pid) as ->.
  { rewrite Hborn, List.map_app. cbn [List.map fst]. apply List.last_last. }
  edestruct (wait_children_ok born (Z.pos last_pid) 0) as (s' & -> & Htrace);
    [done | |].
  { intros p0 f0 Hin. exists false. cbn [os procs].
    by apply register_lookup. }
  unfold world_with in Htrace. cbn [os trace] in Htrace.
  rewrite <- !(assoc_L (++)) in Htrace.
  exists s'. eexists. split; [|split; [exact Htrace |]].
  { f_equal. rewrite Hborn. rewrite fold_status_last by (by rewrite <- Hborn).
    done. }
  rewrite !count_app, !forked_app, !waited_app.
  rewrite count_pipe_events, fork_events_pipes, fork_events_forked,
    fork_events_waited, waited_waits.
  rewrite !count_map_false by done.
  unfold forked, waited, pipe_events. rewrite !omap_map_none by done.
  rewrite !app_nil_l, !(right_id_L [] (++)), Hpids.
  repeat split; try done; try lia.
  by rewrite length_map.
Qed.

Lemma pipeline_status_is_that_of_the_last_stage_witness :
  exists (s' : PM) (new : list event),
    execute_pipeline_internal
      [Demo.simple ["ls"]; Demo.simple ["grep"; "foo"]; Demo.simple ["wc"; "-l"]]
      Demo.manager
    = (match (if exec_external_command (os Demo.manager) (Demo.simple ["wc"; "-l"])
              then WExited 7 else WExited 127) with
       | WExited code => code
       | WSignaled sig => 128 + sig
       | WOther => 0
       end, s')
    /\ trace (os s') = trace (os Demo.manager) ++ new
    /\ count is_pipe new
       = (length [Demo.simple ["ls"]; Demo.simple ["grep"; "foo"];
                  Demo.simple ["wc"; "-l"]] - 1)%nat
    /\ forked new
       = List.map (fun kid => Z.pos kid.1)
           [(10%positive, WExited 3); (11%positive, WSignaled 9);
            (12%positive, WExited 7)]
    /\ waited new
       = List.map (fun kid => Z.pos kid.1)
           [(10%positive, WExited 3); (11%positive, WSignaled 9);
            (12%positive, WExited 7)]
    /\ length (forked new)
       = length [Demo.simple ["ls"]; Demo.simple ["grep"; "foo"];
                 Demo.simple ["wc"; "-l"]].
Proof.
  apply (pipeline_status_is_that_of_the_last_stage
           [Demo.simple ["ls"]; Demo.simple ["grep"; "foo"]; Demo.simple ["wc"; "-l"]]
           Demo.manager [(3, 4); (5, 6)] []
           [(10%positive, WExited 3); (11%positive, WSignaled 9);
            (12%positive, WExited 7)] []
           (Demo.simple ["wc"; "-l"]) 12%positive (WExited 7)).
  - cbn. lia.
  - reflexivity.
  - reflexivity.
  - reflexivity.
  - reflexivity.
  - cbn. repeat (apply NoDup_cons; split;
      [intros H; repeat (apply elem_of_cons in H as [H | H]; [discriminate H |]);
       by apply elem_of_nil in H |]).
    apply NoDup_nil_2.
  - reflexivity.
  - reflexivity.
Defined.

End PipelineClaims.

(** ** The shell's dispatch of a parsed line *)

Module ShellFacts.
Import CommandParser OS ProcessManager PipelineSpec PipelineFacts.

(** A line with several segments yields the command of its first segment
    only, marked as a pipeline member. *)
Lemma parse_command_builds_first_segment_only
    (env : Env) (line : string) (first second : list string)
    (more : list (list string)) :
  parse_pipeline line = first :: second :: more ->
  parse_command env line
  = set_is_pipeline true <$> parse_single_command env first.
Proof.
  intros Hpp. unfold parse_command. rewrite Hpp.
  destruct line as [|c line]; [done |]. cbn [Chars.empty].
  by destruct (parse_single_command env first).
Qed.

(** [ProcessManager::execute_command] creates no pipe and forks at most one
    child. *)
Lemma execute_command_forks_at_most_once (command : Command) (s : PM) :
  exists new : list event,
    trace (os (execute_command command s).2) = trace (os s) ++ new
    /\ count is_pipe new = 0%nat
    /\ (count is_fork new <= 1)%nat.
Proof.
  assert (forall t : list event,
             exists new : list event,
               t = t ++ new /\ count is_pipe new = 0%nat
               /\ (count is_fork new <= 1)%nat) as Hnone.
  { intros t. exists []. rewrite (right_id_L [] (++)). cbn. split; [done | lia]. }
  unfold execute_command.
  destruct (arguments command) as [|cmd_name args]; [apply Hnone |].
  destruct (bool_decide (cmd_name ∈ builtin_names)); [apply Hnone |].
  unfold mbind, M_bind, bind, world. cbn beta iota.
  destruct (Chars.empty (find_executable (os s) cmd_name)).
  { eexists. cbn. split; [reflexivity |]. cbn. split; [done | lia]. }
  unfold sys, fork.
  destruct (fork_script (os s)) as [|[[pid st]|] script].
  - eexists. cbn. split; [reflexivity |]. cbn. split; [done | lia].
  - change (Z.pos pid <? 0) with false. cbv iota.
    destruct (background command).
    + eexists. cbn. split; [reflexivity |]. cbn. split; [done | lia].
    + unfold waitpid. cbn [os procs set_procs log set_trace].
      rewrite lookup_insert_eq.
      eexists. cbn. rewrite <- (assoc_L (++)). split; [reflexivity |].
      cbn. split; [done | lia].
  - eexists. cbn. split; [reflexivity |]. cbn. split; [done | lia].
Qed.

(** For every line with several segments whose first command is not an
    internal operation, the shell prints its notice and runs that single
    command: no pipe, at most one fork. *)
Lemma shell_runs_first_segment_only
    (execute_builtin : Command -> World -> Z * World)
    (line : string) (sh : Shell.ShellState)
    (first second : list string) (more : list (list string))
    (command : Command) :
  parse_pipeline line = first :: second :: more ->
  parse_single_command (environ (os (Shell.process_manager_ sh))) first
  = Some command ->
  match arguments command with
  | [] => false
  | name :: _ => BuiltinCommands.is_builtin name
  end = false ->
  exists new : list event,
    trace (os (Shell.process_manager_
                 (Shell.execute_command execute_builtin line sh)))
    = trace (os (Shell.process_manager_ sh))
      ++ EStdout "Pipeline detected but not fully implemented yet." :: new
    /\ count is_pipe new = 0%nat
    /\ (count is_fork new <= 1)%nat.
Proof.
  intros Hpp Hfirst Hnb. unfold Shell.execute_command.
  rewrite (parse_command_builds_first_segment_only _ _ _ _ _ Hpp), Hfirst.
  cbn [fmap option_fmap option_map arguments set_is_pipeline is_pipeline].
  rewrite Hnb.
  unfold mbind at 1. unfold M_bind at 1. unfold bind at 1.
  unfold emit at 1. unfold sys at 1. cbn beta iota.
  match goal with
  | |- context [execute_command ?c ?s] =>
      destruct (execute_command_forks_at_most_once c s) as (new & Htr & Hp & Hf);
      destruct (execute_command c s) as [status pm'] eqn:Hrun
  end.
  exists new. cbn [snd] in Htr. split; [|done].
  assert (forall cur, Shell.process_manager_ (Shell.mkShell (Shell.running_ sh) cur pm')
                      = pm') as Hpm by done.
  rewrite Hpm, Htr. cbn. by rewrite <- (assoc_L (++)).
Qed.

(** A line that ends inside a double quote, and a line whose redirection
    operator has no operand, are both launched. *)
Lemma malformed_lines_are_launched :
  forked (trace (os (Shell.process_manager_
                       (Shell.execute_command Demo.no_builtin
                          ("cat " +:+ String Chars.dquote "abc") Demo.shell))))
  = [10]
  /\ forked (trace (os (Shell.process_manager_
                          (Shell.execute_command Demo.no_builtin
                             "sort <" Demo.shell))))
     = [10].
Proof. split; reflexivity. Qed.

(** A child whose code does not reach [execvp] exits with 127, which a
    foreground [execute_command] returns. *)
Lemma exec_failure_status_is_127
    (command : Command) (cmd_name : string) (args : list string) (s : PM)
    (pid : positive) (st : wstatus) (script : list (option (positive * wstatus))) :
  arguments command = cmd_name :: args ->
  cmd_name ∉ builtin_names ->
  find_executable (os s) cmd_name <> EmptyString ->
  fork_script (os s) = Some (pid, st) :: script ->
  exec_external_command (os s) command = false ->
  background command = false ->
  (execute_command command s).1 = 127.
Proof.
  intros Hargs Hnb Hfound Hscript Hexec Hbg.
  unfold execute_command. rewrite Hargs, bool_decide_eq_false_2 by done.
  unfold mbind, M_bind, bind, world. cbn beta iota.
  destruct (find_executable (os s) cmd_name) as [|c path] eqn:Hpath; [done |].
  cbn [Chars.empty]. unfold sys, fork. rewrite Hscript, Hexec, Hbg.
  change (Z.pos pid <? 0) with false. cbv iota.
  unfold waitpid. cbn [os procs set_procs log set_trace].
  by rewrite lookup_insert_eq.
Qed.

End ShellFacts.

Module ShellClaims.
Import CommandParser OS ProcessManager.

(** C1 does not hold of the code.  The line [ls | grep foo | wc -l] is split
    into three segments, but [parse_command] builds the command of the first
    segment only, and the shell, after printing that pipelines are not fully
    implemented, runs that single command through
    [ProcessManager::execute_command]: no pipe is created, one child is
    forked instead of three, and the status waited for is that of the first
    stage. *)
Theorem pipeline_line_runs_only_its_first_segment :
  parse_pipeline "ls | grep foo | wc -l"
  = [["ls"; EmptyString]; ["grep"; "foo"; EmptyString]; ["wc"; "-l"]]
  /\ parse_command (environ Demo.machine) "ls | grep foo | wc -l"
     = Some (mkCommand ["ls"; EmptyString] EmptyString EmptyString false false true)
  /\ trace (os (Shell.process_manager_
                  (Shell.execute_command Demo.no_builtin
                     "ls | grep foo | wc -l" Demo.shell)))
     = [EStdout "Pipeline detected but not fully implemented yet.";
        EFork 10 []; EWait 10].
Proof. repeat split; reflexivity. Qed.

End ShellClaims.

(** ** More about the parser *)

Module ParserMoreFacts.
Import Chars CommandParser StringFacts ParserSpec ParserFacts ParserMoreSpec.

(** *** Scanning a line in two parts *)

Lemma scan_app_aux n : forall a b st,
  (String.length a <= n)%nat ->
  lone_backslash a = false ->
  scan (a +:+ b) st = scan b (scan a st).
Proof.
  induction n as [|n IH]; intros [|c a] b st Hlen Hb;
    rewrite ?string_app_nil_l, ?string_app_cons; simpl in *; try done; try lia.
  destruct (Ascii.eqb c backslash).
  - destruct a as [|c' a']; [done |].
    rewrite string_app_cons. simpl in *. apply IH; [lia | done].
  - apply IH; [lia | done].
Qed.

Lemma scan_app a b st :
  lone_backslash a = false -> scan (a +:+ b) st = scan b (scan a st).
Proof. by apply (scan_app_aux (String.length a)). Qed.

Lemma no_backslash_not_lone s :
  contains backslash s = false -> lone_backslash s = false.
Proof.
  induction s as [|c s IH]; [done |].
  intros [Hc Hs]%contains_cons_false. cbn [lone_backslash].
  destruct (Ascii.eqb_spec c backslash); [done | by apply IH].
Qed.

Lemma plain_chars_no_backslash s :
  all_chars plain_char s = true -> contains backslash s = false.
Proof.
  induction s as [|c s IH]; [done |].
  cbn [all_chars contains]. intros [Hc Hs]%andb_prop.
  by rewrite (plain_char_not_backslash c Hc), IH.
Qed.

Lemma unwords_no_backslash ws :
  Forall (fun t => plain_word t = true) ws ->
  contains backslash (unwords ws) = false.
Proof.
  induction ws as [|w ws IH]; [done |].
  intros Hall. pose proof (Forall_inv Hall) as Hw.
  apply Forall_inv_tail in Hall. apply andb_prop in Hw as [_ Hw].
  destruct ws as [|w2 ws]; [by apply plain_chars_no_backslash |].
  change (unwords (w :: w2 :: ws)) with (w +:+ String " " (unwords (w2 :: ws))).
  rewrite contains_app, (plain_chars_no_backslash w Hw).
  change (contains backslash (String " " (unwords (w2 :: ws))))
    with (contains backslash (unwords (w2 :: ws))).
  by rewrite IH.
Qed.

(** *** No segment of the result is empty *)

Lemma step_segments c st : segments_ok st -> segments_ok (step c st).
Proof.
  unfold segments_ok, step, on_pipe, on_space, add_char. intros H.
  repeat (case_match; cbn [result]; try done).
  all: apply Forall_app; split; [done |]; by constructor.
Qed.

Lemma scan_segments_aux n : forall line st,
  (String.length line <= n)%nat -> segments_ok st -> segments_ok (scan line st).
Proof.
  induction n as [|n IH]; intros [|c rest] st Hlen Hst; simpl in *; try done; try lia.
  destruct (Ascii.eqb c backslash).
  - destruct rest as [|c' rest']; simpl in *.
    + by apply step_segments.
    + apply IH; [lia | done].
  - apply IH; [lia | by apply step_segments].
Qed.

Lemma finish_segments st :
  segments_ok st -> Forall (fun seg : list string => seg <> []) (finish st).
Proof.
  unfold segments_ok, finish. intros H.
  case_match; [|done]. apply Forall_app. split; [done |].
  constructor; [|done]. by destruct (current_tokens st).
Qed.

(** *** Blanks and pipes in front of a line *)

Lemma step_blank_or_pipe_init c :
  blank_or_pipe c = true -> step c scan_init = scan_init.
Proof.
  destruct c as [[] [] [] [] [] [] [] []]; vm_compute; congruence.
Qed.

Lemma blank_or_pipe_not_backslash c :
  blank_or_pipe c = true -> Ascii.eqb c backslash = false.
Proof.
  destruct c as [[] [] [] [] [] [] [] []]; vm_compute; congruence.
Qed.

Lemma scan_blanks_and_pipes : forall pre rest,
  all_chars blank_or_pipe pre = true ->
  scan (pre +:+ rest) scan_init = scan rest scan_init.
Proof.
  induction pre as [|c pre IH]; intros rest Hall; [done |].
  cbn [all_chars] in Hall. apply andb_prop in Hall as [Hc Hall].
  rewrite string_app_cons. cbn [scan].
  rewrite (blank_or_pipe_not_backslash c Hc), step_blank_or_pipe_init by done.
  by apply IH.
Qed.

(** *** Words, then more text *)

Lemma scan_unwords_then w ws rest res toks :
  Forall (fun t => plain_word t = true) (w :: ws) ->
  scan (unwords (w :: ws) +:+ rest) (mkScan res toks EmptyString false false)
  = scan rest (mkScan res (toks ++ removelast (w :: ws)) (List.last ws w)
                      false false).
Proof.
  intros Hall.
  rewrite scan_app
    by (by apply no_backslash_not_lone, unwords_no_backslash).
  by rewrite scan_unwords.
Qed.

Lemma removelast_last_cons (w : string) (ws : list string) :
  removelast (w :: ws) ++ [List.last ws w] = w :: ws.
Proof.
  rewrite <- (last_cons_default ws w w). symmetry.
  by apply app_removelast_last.
Qed.

Lemma last_word_nonempty w ws :
  Forall (fun t => plain_word t = true) (w :: ws) ->
  empty (List.last ws w) = false.
Proof.
  intros Hall.
  pose proof (Forall_last (fun t => plain_word t = true) ws w Hall) as H.
  apply andb_prop in H as [H _]. by destruct (empty (List.last ws w)).
Qed.

(** *** Recognized redirections *)

Lemma parse_redirection_loop_op : forall ws cmd acc op file rest,
  redirect_op op = true ->
  Forall (fun t => redirect_op t = false) ws ->
  parse_redirection_loop cmd acc (ws ++ op :: file :: rest)
  = parse_redirection_loop (apply_redirect op file cmd) (acc ++ ws) rest.
Proof.
  induction ws as [|t ws IH]; intros cmd acc op file rest Hop Hws.
  - rewrite app_nil_l, (right_id_L [] (++)). cbn [parse_redirection_loop].
    unfold apply_redirect. unfold redirect_op in Hop.
    destruct (String.eqb op "<"); [done |].
    destruct (String.eqb op ">"); [done |].
    by destruct (String.eqb op ">>").
  - pose proof (Forall_inv Hws) as Ht. apply Forall_inv_tail in Hws.
    unfold redirect_op in Ht.
    apply orb_false_elim in Ht as [[H1 H2]%orb_false_elim H3].
    cbn [app parse_redirection_loop].
    destruct (ws ++ op :: file :: rest) as [|next rest'] eqn:Hrest.
    { by destruct ws. }
    rewrite H1, H2, H3, <- Hrest, IH by done.
    by rewrite <- (assoc_L (++)).
Qed.

(** *** Segments separated by pipes *)

Lemma scan_pipe rest st :
  open_quote_of st = None ->
  scan (String "|" rest) st = scan rest (on_pipe st).
Proof.
  intros [Hs Hd]%open_quote_none. cbn [scan].
  change (Ascii.eqb "|" backslash) with false. cbv iota.
  unfold step. by rewrite Hs, Hd.
Qed.

Lemma finish_scan_unwords res w ws :
  Forall (fun t => plain_word t = true) (w :: ws) ->
  finish (scan (unwords (w :: ws)) (mkScan res [] EmptyString false false))
  = res ++ [w :: ws].
Proof.
  intros Hall. rewrite scan_unwords by done.
  unfold finish. cbn [current_token current_tokens result].
  rewrite (last_word_nonempty w ws Hall). cbn [negb orb].
  by rewrite app_nil_l, removelast_last_cons.
Qed.

Lemma on_pipe_after_words res w ws :
  Forall (fun t => plain_word t = true) (w :: ws) ->
  on_pipe (mkScan res ([] ++ removelast (w :: ws)) (List.last ws w) false false)
  = mkScan (res ++ [w :: ws]) [] EmptyString false false.
Proof.
  intros Hall. unfold on_pipe. cbn [current_token current_tokens result
    in_single_quote in_double_quote].
  rewrite (last_word_nonempty w ws Hall). cbn [negb orb].
  by rewrite app_nil_l, removelast_last_cons.
Qed.

Lemma finish_scan_segments : forall segs seg res,
  Forall good_segment (seg :: segs) ->
  finish (scan (join_with "|" (List.map unwords (seg :: segs)))
               (mkScan res [] EmptyString false false))
  = res ++ seg :: segs.
Proof.
  induction segs as [|seg2 segs IH]; intros seg res Hall.
  - apply Forall_inv in Hall as [Hne Hall].
    destruct seg as [|w ws]; [done |].
    cbn [List.map join_with]. by apply finish_scan_unwords.
  - pose proof (Forall_inv Hall) as [Hne Hseg]. apply Forall_inv_tail in Hall.
    destruct seg as [|w ws]; [done |].
    change (join_with "|" (List.map unwords ((w :: ws) :: seg2 :: segs)))
      with (unwords (w :: ws)
            +:+ String "|" (join_with "|" (List.map unwords (seg2 :: segs)))).
    rewrite scan_unwords_then, scan_pipe by done.
    rewrite on_pipe_after_words by done.
    rewrite IH by done. by rewrite <- (assoc_L (++)).
Qed.

Lemma finish_scan_spaced_segments : forall segs seg res,
  Forall good_segment (seg :: segs) ->
  finish (scan (join_with " | " (List.map unwords (seg :: segs)))
               (mkScan res [] EmptyString false false))
  = res ++ List.map (fun sg => sg ++ [EmptyString]) (removelast (seg :: segs))
        ++ [List.last segs seg].
Proof.
  induction segs as [|seg2 segs IH]; intros seg res Hall.
  - apply Forall_inv in Hall as [Hne Hall].
    destruct seg as [|w ws]; [done |].
    cbn [List.map join_with removelast List.last app].
    by apply finish_scan_unwords.
  - pose proof (Forall_inv Hall) as [Hne Hseg]. apply Forall_inv_tail in Hall.
    destruct seg as [|w ws]; [done |].
    change (join_with " | " (List.map unwords ((w :: ws) :: seg2 :: segs)))
      with (unwords (w :: ws)
            +:+ String " " (String "|" (String " "
                  (join_with " | " (List.map unwords (seg2 :: segs)))))).
    rewrite scan_unwords_then by done.
    rewrite scan_blank by done.
    assert (on_space (mkScan res ([] ++ removelast (w :: ws)) (List.last ws w)
                             false false)
            = mkScan res (w :: ws) EmptyString false false) as ->.
    { unfold on_space. cbn [current_token current_tokens result
        in_single_quote in_double_quote].
      rewrite (last_word_nonempty w ws Hseg).
      by rewrite app_nil_l, removelast_last_cons. }
    rewrite scan_pipe by done.
    assert (on_pipe (mkScan res (w :: ws) EmptyString false false)
            = mkScan (res ++ [(w :: ws) ++ [EmptyString]]) [] EmptyString false false)
      as -> by done.
    rewrite scan_blank by done.
    change (on_space (mkScan ?r [] EmptyString false false))
      with (mkScan r [] EmptyString false false).
    rewrite IH by done.
    rewrite (last_cons_default segs seg2 (w :: ws)).
    change (removelast ((w :: ws) :: seg2 :: segs))
      with ((w :: ws) :: removelast (seg2 :: segs)).
    cbn [List.map]. by rewrite <- !(assoc_L (++)).
Qed.

(** *** The inner loops of the expander *)

Lemma expand_dollar_brace env t :
  expand_variables_in_token env (String dollar (String lbrace t))
  = read_braced env EmptyString t.
Proof. reflexivity. Qed.

Lemma expand_dollar_name env d t :
  Ascii.eqb d lbrace = false ->
  expand_variables_in_token env (String dollar (String d t))
  = read_name env EmptyString (String d t).
Proof.
  intros Hd. cbn [expand_variables_in_token].
  change (Ascii.eqb dollar dollar) with true. cbv iota. rewrite Hd.
  reflexivity.
Qed.

Lemma read_braced_cons env var e t :
  read_braced env var (String e t)
  = if Ascii.eqb e rbrace
    then get_environment_variable env var +:+ expand_variables_in_token env t
    else read_braced env (push_back var e) t.
Proof. reflexivity. Qed.

Lemma read_name_cons env var e t :
  read_name env var (String e t)
  = if name_char e
    then read_name env (push_back var e) t
    else get_environment_variable env var
         +:+ expand_variables_in_token env (String e t).
Proof. reflexivity. Qed.

Lemma read_braced_closed env : forall name var rest,
  contains rbrace name = false ->
  read_braced env var (name +:+ String rbrace rest)
  = get_environment_variable env (var +:+ name)
    +:+ expand_variables_in_token env rest.
Proof.
  induction name as [|c name IH]; intros var rest Hname.
  - rewrite string_app_nil_l, string_app_nil_r, read_braced_cons.
    by change (Ascii.eqb rbrace rbrace) with true.
  - apply contains_cons_false in Hname as [Hc Hname].
    rewrite string_app_cons, read_braced_cons.
    destruct (Ascii.eqb_spec c rbrace); [done |].
    rewrite IH by done. by rewrite push_back_app.
Qed.




(** *** The output of the expander has no dollar sign of its own *)

Lemma getenv_dollar_free env var :
  dollar_free env -> contains dollar (get_environment_variable env var) = false.
Proof.
  intros Henv. unfold get_environment_variable.
  destruct (env !! var) as [v|] eqn:Hv; [by apply (Henv var) | done].
Qed.

Lemma expand_output_dollar_free_aux env n :
  dollar_free env ->
  forall s, (String.length s <= n)%nat ->
            contains dollar (expand_variables_in_token env s) = false.
Proof.
  intros Henv. induction n as [|n IH]; intros [|c rest] Hlen;
    cbn [String.length] in Hlen; try done; try lia.
  assert (forall t var, (String.length t <= n)%nat ->
                        contains dollar (read_name env var t) = false) as Hname.
  { induction t as [|e t IHt]; intros var Ht.
    - by apply getenv_dollar_free.
    - rewrite read_name_cons. destruct (name_char e).
      + apply IHt. cbn [String.length] in Ht. lia.
      + rewrite contains_app, getenv_dollar_free by done. by apply IH. }
  assert (forall t var, (String.length t <= n)%nat ->
                        contains dollar (read_braced env var t) = false) as Hbr.
  { induction t as [|e t IHt]; intros var Ht.
    - by apply getenv_dollar_free.
    - cbn [String.length] in Ht. rewrite read_braced_cons.
      destruct (Ascii.eqb e rbrace).
      + rewrite contains_app, getenv_dollar_free by done. apply IH. lia.
      + apply IHt. lia. }
  destruct (Ascii.eqb_spec c dollar) as [-> | Hc].
  - destruct rest as [|d rest']; [done |].
    destruct (Ascii.eqb_spec d lbrace) as [-> | Hd].
    + rewrite expand_dollar_brace. apply Hbr. cbn [String.length] in Hlen. lia.
    + rewrite expand_dollar_name by (by apply Ascii.eqb_neq).
      apply Hname. lia.
  - cbn [expand_variables_in_token].
    destruct (Ascii.eqb_spec c dollar) as [|_]; [done |].
    cbn [contains]. destruct (Ascii.eqb_spec c dollar) as [|_]; [done |].
    apply IH. lia.
Qed.

End ParserMoreFacts.

Module ParserExtras.
Import Chars CStrings CommandParser StringFacts ParserSpec ParserFacts.
Import ParserMoreSpec ParserMoreFacts.

(** X1: no segment that [parse_pipeline] returns is an empty token list:
    an empty segment (a leading, doubled or trailing pipe) is dropped, not
    reported. *)
Theorem parse_pipeline_segments_are_nonempty (line : string) :
  Forall (fun seg : list string => seg <> []) (parse_pipeline line).
Proof.
  unfold parse_pipeline. apply finish_segments.
  apply (scan_segments_aux (String.length line)); [done |].
  by constructor.
Qed.

(** X2: [parse_command] returns the null pointer exactly when the line
    yields no segment at all; every line with at least one token yields a
    command. *)
Theorem parse_command_fails_iff_no_tokens (env : Env) (line : string) :
  parse_command env line = None <-> parse_pipeline line = [].
Proof.
  assert (Forall (fun seg : list string => seg <> []) (parse_pipeline line))
    as Hne.
  { unfold parse_pipeline. apply finish_segments.
    apply (scan_segments_aux (String.length line)); [done | by constructor]. }
  unfold parse_command. destruct line as [|c line]; [done |].
  cbn [empty].
  destruct (parse_pipeline (String c line)) as [|first [|second more]]; [done | |].
  - apply Forall_inv in Hne. destruct first as [|t ts]; [done |].
    split; [|done]. unfold parse_single_command.
    destruct (parse_redirection new_Command (t :: ts)) as [c1 r1].
    destruct (parse_background c1 r1) as [c2 r2]. done.
  - apply Forall_inv in Hne. destruct first as [|t ts]; [done |].
    split; [|done]. unfold parse_single_command.
    destruct (parse_redirection new_Command (t :: ts)) as [c1 r1].
    destruct (parse_background c1 r1) as [c2 r2]. done.
Qed.

(** X3: blanks and pipe characters in front of a line are ignored: the
    line parses as the rest does, so a line of blanks and pipes only yields
    no segment. *)
Theorem leading_blanks_and_pipes_are_ignored (pre rest : string) :
  all_chars blank_or_pipe pre = true ->
  parse_pipeline (pre +:+ rest) = parse_pipeline rest
  /\ parse_pipeline pre = [].
Proof.
  intros Hpre. unfold parse_pipeline. split.
  - by rewrite scan_blanks_and_pipes.
  - rewrite <- (string_app_nil_r pre). by rewrite scan_blanks_and_pipes.
Qed.

Lemma leading_blanks_and_pipes_are_ignored_witness :
  parse_pipeline (" | |" +:+ "ls -l") = parse_pipeline "ls -l"
  /\ parse_pipeline " | |" = [].
Proof.
  apply (leading_blanks_and_pipes_are_ignored " | |" "ls -l"). reflexivity.
Defined.

(** X4: splitting inverts joining: when non-empty segments of plain words
    are written with single blanks between the words and a pipe character
    directly between the segments, [parse_pipeline] returns exactly the
    segments. *)
Theorem parse_pipeline_splits_at_pipes (segs : list (list string)) :
  Forall good_segment segs ->
  parse_pipeline (join_with "|" (List.map unwords segs)) = segs.
Proof.
  intros Hall. destruct segs as [|seg segs]; [done |].
  unfold parse_pipeline, scan_init. by rewrite finish_scan_segments.
Qed.

Lemma parse_pipeline_splits_at_pipes_witness :
  parse_pipeline (join_with "|" (List.map unwords
                    [["ls"; "-l"]; ["grep"; "foo"]; ["wc"]]))
  = [["ls"; "-l"]; ["grep"; "foo"]; ["wc"]].
Proof.
  apply (parse_pipeline_splits_at_pipes [["ls"; "-l"]; ["grep"; "foo"]; ["wc"]]).
  repeat (constructor; [split; [discriminate | repeat constructor] |]).
  constructor.
Defined.

(** X5: when the pipe between two segments has a blank on either side,
    every segment except the last gets an additional empty string as its
    last token. *)
Theorem blank_before_pipe_adds_an_empty_token
    (seg : list string) (segs : list (list string)) :
  Forall good_segment (seg :: segs) ->
  parse_pipeline (join_with " | " (List.map unwords (seg :: segs)))
  = List.map (fun sg => sg ++ [EmptyString]) (removelast (seg :: segs))
    ++ [List.last segs seg].
Proof.
  intros Hall. unfold parse_pipeline, scan_init.
  by rewrite finish_scan_spaced_segments.
Qed.

Lemma blank_before_pipe_adds_an_empty_token_witness :
  parse_pipeline (join_with " | " (List.map unwords
                    [["ls"; "-l"]; ["grep"; "foo"]; ["wc"]]))
  = List.map (fun sg => sg ++ [EmptyString])
      (removelast [["ls"; "-l"]; ["grep"; "foo"]; ["wc"]])
    ++ [List.last [["grep"; "foo"]; ["wc"]] ["ls"; "-l"]].
Proof.
  apply (blank_before_pipe_adds_an_empty_token
           ["ls"; "-l"] [["grep"; "foo"]; ["wc"]]).
  repeat (constructor; [split; [discriminate | repeat constructor] |]).
  constructor.
Defined.

(** X6: a blank at the end of a line of plain words adds an empty string
    as the last token of the segment. *)
Theorem trailing_blank_adds_an_empty_token (w : string) (ws : list string) :
  Forall (fun t => plain_word t = true) (w :: ws) ->
  parse_pipeline (unwords (w :: ws) +:+ " ") = [(w :: ws) ++ [EmptyString]].
Proof.
  intros Hall. unfold parse_pipeline, scan_init.
  rewrite scan_unwords_then by done.
  rewrite scan_blank by done. cbn [scan].
  unfold on_space, finish. cbn [current_token current_tokens result].
  rewrite (last_word_nonempty w ws Hall). cbn [current_token current_tokens result].
  cbn [empty negb orb]. rewrite app_nil_l, removelast_last_cons.
  by destruct ws.
Qed.

Lemma trailing_blank_adds_an_empty_token_witness :
  parse_pipeline (unwords ["sleep"; "5"; "&"] +:+ " ")
  = [["sleep"; "5"; "&"] ++ [EmptyString]].
Proof.
  apply (trailing_blank_adds_an_empty_token "sleep" ["5"; "&"]).
  repeat constructor.
Defined.



(** X8: when a segment redirects its output twice, the later redirection
    wins: [output_file] is the second operand and [append_output] follows
    the second operator. *)
Theorem last_output_redirection_wins
    (env : Env) (w : string) (ws : list string) (op1 f1 op2 f2 : string) :
  Forall (fun t => redirect_op t = false) (w :: ws) ->
  last (w :: ws) <> Some "&" ->
  (op1 = ">" \/ op1 = ">>") ->
  (op2 = ">" \/ op2 = ">>") ->
  parse_single_command env ((w :: ws) ++ [op1; f1; op2; f2])
  = Some (mkCommand (expand_variables env (w :: ws)) EmptyString f2
                    (String.eqb op2 ">>") false false).
Proof.
  intros Hws Hbg Hop1 Hop2.
  assert (parse_redirection new_Command ((w :: ws) ++ [op1; f1; op2; f2])
          = (set_output_file f2 (String.eqb op2 ">>") new_Command, w :: ws))
    as Hred.
  { unfold parse_redirection.
    rewrite (parse_redirection_loop_op (w :: ws) _ _ op1 f1 [op2; f2])
      by (by destruct Hop1 as [-> | ->]).
    rewrite (parse_redirection_loop_op [] _ _ op2 f2 [])
      by (by destruct Hop2 as [-> | ->]).
    cbn [parse_redirection_loop]. rewrite (right_id_L [] (++)), app_nil_l.
    by destruct Hop1 as [-> | ->], Hop2 as [-> | ->]. }
  unfold parse_single_command. cbn [app]. cbn [app] in Hred.
  by rewrite Hred, parse_background_other.
Qed.

Lemma last_output_redirection_wins_witness :
  parse_single_command ∅ (("echo" :: ["hi"]) ++ [">>"; "a.log"; ">"; "b.log"])
  = Some (mkCommand (expand_variables ∅ ("echo" :: ["hi"])) EmptyString "b.log"
                    (String.eqb ">" ">>") false false).
Proof.
  apply (last_output_redirection_wins ∅ "echo" ["hi"] ">>" "a.log" ">" "b.log").
  - repeat constructor.
  - vm_compute. discriminate.
  - by right.
  - by left.
Defined.









(** X13: the expander copies no dollar sign: when no value of the
    environment contains one, neither does the output, and expanding the
    output again changes nothing. *)
Theorem expansion_is_idempotent (env : Env) (token : string) :
  dollar_free env ->
  contains dollar (expand_variables_in_token env token) = false
  /\ expand_variables_in_token env (expand_variables_in_token env token)
     = expand_variables_in_token env token.
Proof.
  intros Henv.
  assert (contains dollar (expand_variables_in_token env token) = false) as H.
  { by apply (expand_output_dollar_free_aux env (String.length token)). }
  split; [done |]. by apply expand_no_dollar.
Qed.

Lemma expansion_is_idempotent_witness :
  contains dollar (expand_variables_in_token {[ "A" := "x" ]} "$A$$B${A") = false
  /\ expand_variables_in_token {[ "A" := "x" ]}
       (expand_variables_in_token {[ "A" := "x" ]} "$A$$B${A")
     = expand_variables_in_token {[ "A" := "x" ]} "$A$$B${A".
Proof.
  apply (expansion_is_idempotent {[ "A" := "x" ]} "$A$$B${A").
  intros name value Hlook.
  apply lookup_singleton_Some in Hlook as [_ <-]. reflexivity.
Defined.

End ParserExtras.

(** ** The tokenizer *)

Module TokenizerFacts.
Import Chars StringFacts Tokenizer TokenizerSpec.
Import ParserSpec ParserFacts ParserMoreSpec ParserMoreFacts.

Lemma tok_step_tokens c st : tokens_ok st -> tokens_ok (tok_step c st).
Proof.
  unfold tokens_ok, tok_step. intros H.
  repeat (case_match; cbn [tokens]; try done).
  apply Forall_app. split; [done |]. constructor; [|done].
  by destruct (current_token st).
Qed.

Lemma tok_loop_tokens : forall line st,
  tokens_ok st -> tokens_ok (tok_loop line st).
Proof.
  induction line as [|c line IH]; intros st Hst; [done |].
  cbn [tok_loop]. by apply IH, tok_step_tokens.
Qed.

Lemma tok_loop_app : forall a b st,
  tok_loop (a +:+ b) st = tok_loop b (tok_loop a st).
Proof.
  induction a as [|c a IH]; intros b st; [done |].
  rewrite string_app_cons. cbn [tok_loop]. by rewrite IH.
Qed.

Lemma tok_step_word_char c toks cur :
  word_char c = true ->
  tok_step c (mkTok toks cur false false false)
  = mkTok toks (push_back cur c) false false false.
Proof.
  intros Hc. unfold tok_step, word_char in *.
  cbn [escaped in_single_quote in_double_quote tokens current_token].
  destruct (isspace c), (Ascii.eqb c squote), (Ascii.eqb c dquote),
    (Ascii.eqb c backslash); simpl in *; try done.
Qed.

Lemma tok_loop_word : forall w toks cur,
  all_chars word_char w = true ->
  tok_loop w (mkTok toks cur false false false)
  = mkTok toks (cur +:+ w) false false false.
Proof.
  induction w as [|c w IH]; intros toks cur Hw.
  - by rewrite string_app_nil_r.
  - cbn [all_chars] in Hw. apply andb_prop in Hw as [Hc Hw].
    cbn [tok_loop]. rewrite tok_step_word_char, IH by done.
    by rewrite push_back_app.
Qed.

Lemma tok_step_blank toks cur :
  tok_step " " (mkTok toks cur false false false)
  = if empty cur then mkTok toks cur false false false
    else mkTok (toks ++ [cur]) EmptyString false false false.
Proof. reflexivity. Qed.

Lemma tok_loop_unwords : forall ws w toks,
  Forall (fun t => shell_word t = true) (w :: ws) ->
  tok_loop (unwords (w :: ws)) (mkTok toks EmptyString false false false)
  = mkTok (toks ++ removelast (w :: ws)) (List.last ws w) false false false.
Proof.
  induction ws as [|w2 ws IH]; intros w toks Hall.
  - apply Forall_inv in Hall. apply andb_prop in Hall as [_ Hw].
    cbn [unwords removelast List.last].
    by rewrite tok_loop_word, string_app_nil_l, (right_id_L [] (++)).
  - pose proof (Forall_inv Hall) as Hw. apply Forall_inv_tail in Hall.
    apply andb_prop in Hw as [Hne Hw].
    change (unwords (w :: w2 :: ws)) with (w +:+ String " " (unwords (w2 :: ws))).
    rewrite tok_loop_app, tok_loop_word, string_app_nil_l by done.
    cbn [tok_loop]. rewrite tok_step_blank.
    destruct (empty w); [done |].
    rewrite IH by done. rewrite <- (assoc_L (++)).
    by rewrite (last_cons_default ws w2 w).
Qed.

Lemma shell_last_word_nonempty w ws :
  Forall (fun t => shell_word t = true) (w :: ws) ->
  empty (List.last ws w) = false.
Proof.
  intros Hall.
  pose proof (Forall_last (fun t => shell_word t = true) ws w Hall) as H.
  apply andb_prop in H as [H _]. by destruct (empty (List.last ws w)).
Qed.

Lemma plain_chars_are_word_chars w :
  all_chars plain_char w = true -> all_chars word_char w = true.
Proof.
  induction w as [|c w IH]; [done |].
  cbn [all_chars]. intros [Hc Hw]%andb_prop. rewrite IH, andb_true_r by done.
  unfold plain_char, word_char in *.
  destruct (isspace c), (Ascii.eqb c squote), (Ascii.eqb c dquote),
    (Ascii.eqb c backslash); simpl in *; done.
Qed.

Lemma plain_word_is_shell_word w : plain_word w = true -> shell_word w = true.
Proof.
  unfold plain_word, shell_word. intros [Hne Hw]%andb_prop.
  by rewrite Hne, plain_chars_are_word_chars.
Qed.

Lemma tokenize_unwords w ws :
  Forall (fun t => shell_word t = true) (w :: ws) ->
  tokenize (unwords (w :: ws)) = w :: ws
  /\ tokenize (unwords (w :: ws) +:+ " ") = w :: ws.
Proof.
  intros Hall. unfold tokenize, tokenize_with_quotes, tok_init. cbv zeta.
  rewrite tok_loop_app, tok_loop_unwords by done.
  cbn [tok_loop]. rewrite tok_step_blank.
  rewrite (shell_last_word_nonempty w ws Hall).
  cbn [current_token tokens empty].
  rewrite (shell_last_word_nonempty w ws Hall).
  by rewrite !app_nil_l, removelast_last_cons.
Qed.

End TokenizerFacts.

Module TokenizerExtras.
Import Chars StringFacts Tokenizer TokenizerSpec.
Import ParserSpec ParserFacts ParserMoreSpec ParserMoreFacts TokenizerFacts.

(** X14: no token that [tokenize] returns is the empty string: an empty
    quoted string or a run of blanks yields no token. *)
Theorem tokenize_returns_no_empty_token (line : string) :
  Forall (fun t : string => t <> EmptyString) (tokenize line).
Proof.
  unfold tokenize, tokenize_with_quotes.
  pose proof (tok_loop_tokens line tok_init) as H.
  unfold tokens_ok in H. cbv zeta.
  destruct (empty (current_token (tok_loop line tok_init))) eqn:E.
  - apply H. constructor.
  - apply Forall_app. split; [apply H; constructor |].
    constructor; [|done]. intros Heq. by rewrite Heq in E.
Qed.

(** X15: tokenizing inverts joining: non-empty words without blanks,
    quotes and backslashes, written with single blanks between them, are
    returned as they are, also when a blank follows the last word; a pipe
    character or another operator character inside a word is an ordinary
    character for the tokenizer. *)
Theorem tokenize_inverts_unwords (w : string) (ws : list string) :
  Forall (fun t => shell_word t = true) (w :: ws) ->
  tokenize (unwords (w :: ws)) = w :: ws
  /\ tokenize (unwords (w :: ws) +:+ " ") = w :: ws.
Proof.
  intros Hall. unfold tokenize, tokenize_with_quotes, tok_init. cbv zeta.
  rewrite tok_loop_app, tok_loop_unwords by done.
  cbn [tok_loop]. rewrite tok_step_blank.
  rewrite (shell_last_word_nonempty w ws Hall).
  cbn [current_token tokens empty].
  rewrite (shell_last_word_nonempty w ws Hall).
  by rewrite !app_nil_l, removelast_last_cons.
Qed.

Lemma tokenize_inverts_unwords_witness :
  tokenize (unwords ("a|b" :: ["x>y"; "&"])) = "a|b" :: ["x>y"; "&"]
  /\ tokenize (unwords ("a|b" :: ["x>y"; "&"]) +:+ " ") = "a|b" :: ["x>y"; "&"].
Proof.
  apply (tokenize_inverts_unwords "a|b" ["x>y"; "&"]).
  repeat constructor.
Defined.

(** On a line of plain words separated by single blanks, the scanner
    of [parse_pipeline] and the tokenizer agree: the single segment is the
    token list. *)
Theorem scanners_agree_on_plain_words (w : string) (ws : list string) :
  Forall (fun t => plain_word t = true) (w :: ws) ->
  CommandParser.parse_pipeline (unwords (w :: ws))
  = [tokenize (unwords (w :: ws))].
Proof.
  intros Hall. rewrite parse_pipeline_unwords by done.
  assert (Forall (fun t => shell_word t = true) (w :: ws)) as Hsw.
  { eapply Forall_impl; [exact Hall |]. intros t. apply plain_word_is_shell_word. }
  by destruct (tokenize_unwords w ws Hsw) as [-> _].
Qed.

Lemma scanners_agree_on_plain_words_witness :
  CommandParser.parse_pipeline (unwords ("grep" :: ["-v"; "foo"]))
  = [tokenize (unwords ("grep" :: ["-v"; "foo"]))].
Proof.
  apply (scanners_agree_on_plain_words "grep" ["-v"; "foo"]).
  repeat constructor.
Defined.

End TokenizerExtras.

(** ** More about the process manager *)

Module ProcessMoreFacts.
Import Chars OS ProcessManager StringFacts.
Import ResolutionSpec ResolutionFacts RegistrySpec RegistryFacts.
Import PipelineSpec PipelineFacts ProcessQueries ProcessMoreSpec.

(** *** Resolution *)




Lemma split_path_components : forall path_str cur path_dirs,
  contains colon cur = false ->
  Forall (fun d => d <> EmptyString /\ contains colon d = false) path_dirs ->
  Forall (fun d => d <> EmptyString /\ contains colon d = false)
         (split_path path_str cur path_dirs).
Proof.
  assert (forall cur path_dirs,
             contains colon cur = false ->
             Forall (fun d => d <> EmptyString /\ contains colon d = false) path_dirs ->
             Forall (fun d => d <> EmptyString /\ contains colon d = false)
                    (if empty cur then path_dirs else path_dirs ++ [cur])) as Hpush.
  { intros cur path_dirs Hcur Hdirs. destruct cur as [|c cur]; [done |].
    apply Forall_app. split; [done |]. by constructor. }
  induction path_str as [|c rest IH]; intros cur path_dirs Hcur Hdirs.
  - by apply Hpush.
  - cbn [split_path]. destruct (Ascii.eqb_spec c colon) as [-> | Hc].
    + apply IH; [done | by apply Hpush].
    + apply IH; [|done]. unfold push_back. rewrite contains_app, Hcur.
      cbn. by destruct (Ascii.eqb_spec c colon).
Qed.

(** *** The registry *)

Lemma poll_step_still_running p acc s acc1 s1 q :
  poll_step p acc s = (acc1, s1) ->
  still_running (procs (os s1)) q = still_running (procs (os s)) q.
Proof.
  intros Hstep. apply poll_step_spec in Hstep as [_ Hstep].
  unfold still_running.
  destruct (procs (os s) !! p) as [ch|] eqn:Hp;
    [destruct (finished ch) eqn:Hfin|]; destruct Hstep as (_ & _ & ->); try done.
  destruct (decide (p = q)) as [-> | Hne].
  - by rewrite lookup_delete_eq, Hp, Hfin.
  - by rewrite lookup_delete_ne.
Qed.

Lemma poll_step_waited p acc s acc1 s1 :
  poll_step p acc s = (acc1, s1) ->
  waited (trace (os s1)) = waited (trace (os s)).
Proof.
  intros Hstep. apply poll_step_spec in Hstep as [_ Hstep].
  assert (forall st, waited (EPoll p :: expected_report p st) = []) as Hrep.
  { intros [code | sig |]; cbn; [by destruct (code =? 0) | done | done]. }
  destruct (procs (os s) !! p) as [ch|] eqn:Hp;
    [destruct (finished ch) eqn:Hfin|]; destruct Hstep as (_ & -> & _);
    rewrite waited_app; [rewrite Hrep | |];
    change (waited [EPoll p]) with (@nil Z); by rewrite (right_id_L [] (++)).
Qed.

Lemma sweep_filter : forall pids acc s r s',
  sweep pids acc s = (r, s') ->
  r = acc ++ List.filter (still_running (procs (os s))) pids
  /\ waited (trace (os s')) = waited (trace (os s)).
Proof.
  induction pids as [|p more IH]; intros acc s r s' Hsweep.
  - cbn in Hsweep. injection Hsweep as <- <-. cbn [List.filter].
    by rewrite (right_id_L [] (++)).
  - rewrite sweep_cons in Hsweep.
    destruct (poll_step p acc s) as [acc1 s1] eqn:Hstep.
    apply IH in Hsweep as [-> Hw].
    rewrite Hw, (poll_step_waited _ _ _ _ _ Hstep). split; [|done].
    rewrite (List.filter_ext _ (still_running (procs (os s))))
      by (intros q; by apply (poll_step_still_running p acc s acc1 s1)).
    cbn [List.filter].
    pose proof Hstep as Hspec. apply poll_step_spec in Hspec as [_ Hspec].
    unfold still_running at 2.
    destruct (procs (os s) !! p) as [ch|] eqn:Hp;
      [destruct (finished ch) eqn:Hfin|]; destruct Hspec as (-> & _ & _);
      cbn [negb]; try done.
    by rewrite <- (assoc_L (++)).
Qed.

(** *** Failures of the orchestrator *)

Lemma create_pipes_fails : forall pipes n pipe_fds s rest,
  pipe_script (os s) = List.map Some pipes ++ None :: rest ->
  (length pipes < n)%nat ->
  create_pipes n pipe_fds s
  = (None,
     mkPM (world_with (os s) (fork_script (os s)) rest (procs (os s))
             (trace (os s) ++ pipe_events pipes
              ++ [EStderr "Failed to create pipe"]))
          (background_processes_ s)).
Proof.
  induction pipes as [|[rd wr] pipes IH]; intros n pipe_fds s rest Hscript Hlen;
    (destruct n as [|n]; [cbn in Hlen; lia |]).
  - cbn [create_pipes].
    unfold mbind, M_bind, bind, sys, pipe, emit. rewrite Hscript. cbn.
    unfold pipe_events, world_with. by cbn.
  - cbn [create_pipes].
    unfold mbind, M_bind, bind, sys, pipe. rewrite Hscript. cbn [List.map app].
    cbn beta iota.
    rewrite IH with (rest := rest); [| done | cbn in Hlen; lia].
    cbn. unfold pipe_events, world_with. cbn.
    by rewrite <- !(assoc_L (++)).
Qed.

Lemma fork_children_fails : forall cmds kids i size pipe_fds child_pids s rest,
  fork_script (os s) = List.map Some kids ++ None :: rest ->
  (length kids < length cmds)%nat ->
  fork_children i size pipe_fds cmds child_pids s
  = (None,
     mkPM (world_with (os s) rest (pipe_script (os s))
             (register (spawned (os s) cmds kids) (procs (os s)))
             (trace (os s)
              ++ fork_events i size pipe_fds
                   (List.map fst (spawned (os s) cmds kids))
              ++ [EStderr "Failed to fork process"]))
          (background_processes_ s)).
Proof.
  induction cmds as [|command cmds IH];
    intros [|[pid st] kids] i size pipe_fds child_pids s rest Hscript Hlen;
    try (cbn in Hlen; lia).
  - cbn [fork_children].
    unfold mbind, M_bind, bind, sys, world, fork, emit. rewrite Hscript. cbn.
    unfold world_with. by cbn.
  - cbn [fork_children].
    unfold mbind, M_bind, bind, sys, world, fork. rewrite Hscript.
    cbn [List.map app]. cbn beta iota.
    change (Z.pos pid <? 0) with false. cbv iota.
    rewrite IH with (kids := kids) (rest := rest); [| done | cbn in Hlen; lia].
    cbn [os background_processes_].
    rewrite (spawned_frame _ (os s)) by done.
    cbn [spawned List.map fork_events register foldl fst snd].
    unfold world_with, child_fate. cbn.
    by rewrite <- !(assoc_L (++)).
Qed.

(** *** The wiring of a pipeline *)

Lemma nth_pipe_ends : forall pipes j rd wr,
  pipes !! j = Some (rd, wr) ->
  nth (j * 2) (pipe_ends pipes) 0 = rd
  /\ nth (j * 2 + 1) (pipe_ends pipes) 0 = wr.
Proof.
  induction pipes as [|[r0 w0] pipes IH]; intros j rd wr Hj; [done |].
  destruct j as [|j].
  - injection Hj as <- <-. done.
  - change (pipe_ends ((r0, w0) :: pipes)) with (r0 :: w0 :: pipe_ends pipes).
    replace (S j * 2)%nat with (S (S (j * 2))) by lia.
    replace (S (S (j * 2)) + 1)%nat with (S (S (j * 2 + 1))) by lia.
    cbn [nth]. by apply IH.
Qed.

Lemma closes_of_pipe_ends : forall pipes,
  List.map CClose (pipe_ends pipes)
  = concat (List.map (fun rw => [CClose rw.1; CClose rw.2]) pipes).
Proof.
  induction pipes as [|[r0 w0] pipes IH]; [done |].
  change (pipe_ends ((r0, w0) :: pipes)) with (r0 :: w0 :: pipe_ends pipes).
  cbn [List.map concat app fst snd]. by rewrite IH.
Qed.

Lemma child_setup_wiring pipes i :
  (i <= length pipes)%nat ->
  child_setup i (S (length pipes)) (pipe_ends pipes) = stage_wiring pipes i.
Proof.
  intros Hi. unfold child_setup, stage_wiring.
  rewrite closes_of_pipe_ends. f_equal; [|f_equal].
  - destruct i as [|j]; [done |].
    change (Nat.ltb 0 (S j)) with true. cbv iota.
    replace (S j - 1)%nat with j by lia.
    destruct (pipes !! j) as [[rd wr]|] eqn:Hj.
    + by destruct (nth_pipe_ends pipes j rd wr Hj) as [-> _].
    + apply lookup_ge_None in Hj. lia.
  - replace (S (length pipes) - 1)%nat with (length pipes) by lia.
    destruct (pipes !! i) as [[rd wr]|] eqn:Hl.
    + pose proof (lookup_lt_Some _ _ _ Hl) as Hlt.
      apply Nat.ltb_lt in Hlt. rewrite Hlt.
      by destruct (nth_pipe_ends pipes i rd wr Hl) as [_ ->].
    + apply lookup_ge_None in Hl.
      assert (Nat.ltb i (length pipes) = false) as -> by (apply Nat.ltb_ge; lia).
      done.
Qed.

Lemma fork_events_wired pipes : forall pids i,
  (i + length pids <= S (length pipes))%nat ->
  fork_events i (S (length pipes)) (pipe_ends pipes) pids
  = imap (fun k pid => EFork pid (stage_wiring pipes (i + k))) pids.
Proof.
  induction pids as [|pid pids IH]; intros i Hi; [done |].
  cbn [fork_events length] in *. rewrite imap_cons.
  rewrite child_setup_wiring by lia. rewrite Nat.add_0_r. f_equal.
  rewrite IH by lia. apply imap_ext. intros k x _.
  unfold compose. by replace (S i + k)%nat with (i + S k)%nat by lia.
Qed.

End ProcessMoreFacts.

Module ProcessExtras.
Import Chars OS ProcessManager StringFacts.
Import ResolutionSpec ResolutionFacts RegistrySpec RegistryFacts.
Import PipelineSpec PipelineFacts ProcessQueries ProcessMoreSpec ProcessMoreFacts.



(** For every value of PATH, the directories that the search visits
    are non-empty and contain no colon: empty components of PATH are
    skipped. *)
Theorem path_components_are_nonempty (path_str : string) :
  Forall (fun d => d <> EmptyString /\ contains colon d = false)
         (split_path path_str EmptyString []).
Proof. apply split_path_components; [done | constructor]. Qed.



(** X18: a foreground command that is resolved and forked is waited for
    and reaped, and [execute_command] returns the exit code of the child, 128
    plus the signal number when a signal killed it, and 127 when the child
    could not exec; the background registry is left as it was. *)
Theorem foreground_command_returns_the_exit_status
    (command : Command) (cmd_name : string) (args : list string) (s : PM)
    (pid : positive) (st : wstatus)
    (script : list (option (positive * wstatus))) :
  arguments command = cmd_name :: args ->
  cmd_name ∉ builtin_names ->
  find_executable (os s) cmd_name <> EmptyString ->
  fork_script (os s) = Some (pid, st) :: script ->
  background command = false ->
  execute_command command s
  = (exit_status (child_fate (os s) command st),
     mkPM (world_with (os s) script (pipe_script (os s))
             (delete (Z.pos pid)
                (<[Z.pos pid := mkChild (child_fate (os s) command st) false]>
                   (procs (os s))))
             (trace (os s) ++ [EFork (Z.pos pid) []; EWait (Z.pos pid)]))
          (background_processes_ s)).
Proof.
  intros Hargs Hnb Hfound Hscript Hbg.
  unfold execute_command. rewrite Hargs, bool_decide_eq_false_2 by done.
  unfold mbind, M_bind, bind, world. cbn beta iota.
  destruct (find_executable (os s) cmd_name) as [|c path] eqn:Hpath; [done |].
  cbn [Chars.empty]. unfold sys, fork. rewrite Hscript, Hbg.
  change (Z.pos pid <? 0) with false. cbv iota.
  unfold waitpid. cbn [os procs set_procs log set_trace].
  rewrite lookup_insert_eq.
  unfold world_with, child_fate, exit_status, mret, M_ret, ret.
  unfold log, set_trace, set_procs, set_fork_script. cbn.
  rewrite <- (assoc_L (++)).
  by destruct (exec_external_command (os s) command); [destruct st |].
Qed.

Lemma foreground_command_returns_the_exit_status_witness :
  execute_command (Demo.simple ["tool"; "-x"]) Demo.manager
  = (exit_status (child_fate (os Demo.manager) (Demo.simple ["tool"; "-x"])
                    (WExited 3)),
     mkPM (world_with (os Demo.manager)
             [Some (11%positive, WSignaled 9); Some (12%positive, WExited 7)]
             (pipe_script (os Demo.manager))
             (delete (Z.pos 10)
                (<[Z.pos 10 := mkChild (child_fate (os Demo.manager)
                                          (Demo.simple ["tool"; "-x"]) (WExited 3))
                                       false]>
                   (procs (os Demo.manager))))
             (trace (os Demo.manager) ++ [EFork (Z.pos 10) []; EWait (Z.pos 10)]))
          (background_processes_ Demo.manager)).
Proof.
  apply (foreground_command_returns_the_exit_status
           (Demo.simple ["tool"; "-x"]) "tool" ["-x"] Demo.manager
           10%positive (WExited 3)
           [Some (11%positive, WSignaled 9); Some (12%positive, WExited 7)]).
  - reflexivity.
  - intros H. by repeat (apply elem_of_cons in H as [H | H]; [discriminate H |]);
      apply elem_of_nil in H.
  - vm_compute. discriminate.
  - reflexivity.
  - reflexivity.
Defined.

(** X19: a background command that is resolved and forked returns 0 at
    once without waiting; its pid is appended to the registry and stays there
    across a sweep while the child runs; once the child has terminated, the
    next sweep removes the pid and reports a non-zero exit code or a signal
    (127 when the child could not exec). *)
Theorem background_command_is_registered_then_swept
    (command : Command) (cmd_name : string) (args : list string) (s : PM)
    (pid : positive) (st : wstatus)
    (script : list (option (positive * wstatus))) :
  arguments command = cmd_name :: args ->
  cmd_name ∉ builtin_names ->
  find_executable (os s) cmd_name <> EmptyString ->
  fork_script (os s) = Some (pid, st) :: script ->
  background command = true ->
  let s1 := (execute_command command s).2 in
  let s2 := mkPM (child_exits (Z.pos pid) (os s1)) (background_processes_ s1) in
  (execute_command command s).1 = 0
  /\ background_processes_ s1 = background_processes_ s ++ [Z.pos pid]
  /\ trace (os s1) = trace (os s) ++ [EFork (Z.pos pid) []]
  /\ Z.pos pid ∈ background_processes_ (cleanup_finished_processes s1).2
  /\ (Z.pos pid ∉ background_processes_ (cleanup_finished_processes s2).2)
  /\ reports_of (Z.pos pid) (trace (os (cleanup_finished_processes s2).2))
     = reports_of (Z.pos pid) (trace (os s))
       ++ expected_report (Z.pos pid) (child_fate (os s) command st).
Proof.
  intros Hargs Hnb Hfound Hscript Hbg.
  assert (execute_command command s
          = (0, mkPM (world_with (os s) script (pipe_script (os s))
                        (<[Z.pos pid := mkChild (child_fate (os s) command st) false]>
                           (procs (os s)))
                        (trace (os s) ++ [EFork (Z.pos pid) []]))
                     (background_processes_ s ++ [Z.pos pid]))) as ->.
  { unfold execute_command. rewrite Hargs, bool_decide_eq_false_2 by done.
    unfold mbind, M_bind, bind, world. cbn beta iota.
    destruct (find_executable (os s) cmd_name) as [|c path] eqn:Hpath; [done |].
    cbn [Chars.empty]. unfold sys, fork. rewrite Hscript, Hbg.
    change (Z.pos pid <? 0) with false. cbv iota.
    unfold add_background_process, world_with, child_fate, mret, M_ret, ret.
    unfold log, set_trace, set_procs, set_fork_script. by cbn. }
  cbv zeta. cbn [fst snd os background_processes_].
  split; [done |]. split; [done |]. split; [done |].
  unfold cleanup_finished_processes. split; [|split].
  - match goal with
    | |- context [sweep ?l [] ?x] => destruct (sweep l [] x) as [r s'] eqn:Hsweep
    end.
    apply (sweep_spec (Z.pos pid)) in Hsweep as (_ & Hmem & _ & _).
    cbn [snd background_processes_]. apply Hmem. right.
    cbn [os background_processes_ world_with procs].
    split; [apply elem_of_app; right; by left |].
    eexists. split; [apply lookup_insert_eq | done].
  - match goal with
    | |- context [sweep ?l [] ?x] => destruct (sweep l [] x) as [r s'] eqn:Hsweep
    end.
    apply (sweep_spec (Z.pos pid)) in Hsweep as (_ & Hmem & _ & _).
    cbn [snd background_processes_]. rewrite Hmem.
    intros [H | (_ & ch & Hch & Hrun)]; [by apply elem_of_nil in H |].
    unfold child_exits in Hch. cbn in Hch.
    rewrite lookup_alter_eq, lookup_insert_eq in Hch. cbn in Hch.
    injection Hch as <-. done.
  - match goal with
    | |- context [sweep ?l [] ?x] => destruct (sweep l [] x) as [r s'] eqn:Hsweep
    end.
    apply (sweep_spec (Z.pos pid)) in Hsweep as (Hrep & _ & _ & _).
    cbn [snd os]. rewrite Hrep. cbn [os background_processes_].
    assert (forall w, procs (child_exits (Z.pos pid) w)
                      = alter (fun ch => mkChild (fate ch) true) (Z.pos pid) (procs w))
      as -> by done.
    assert (forall w, trace (child_exits (Z.pos pid) w) = trace w) as -> by done.
    cbn [world_with procs trace].
    rewrite lookup_alter_eq, lookup_insert_eq. cbn [fmap option_fmap option_map].
    cbn [sweep_reports finished fate andb].
    rewrite bool_decide_eq_true_2 by (apply elem_of_app; right; by left).
    rewrite reports_of_app.
    change (reports_of (Z.pos pid) [EFork (Z.pos pid) []]) with (@nil event).
    by rewrite (right_id_L [] (++)).
Qed.

Lemma background_command_is_registered_then_swept_witness :
  let command := mkCommand ["nope/tool"] EmptyString EmptyString false true false in
  let s := mkPM (mkWorld ∅ {[ "nope/tool" := 493 ]} (fun _ _ => true)
                   (fun _ => false) [Some (10%positive, WExited 0)] [] ∅ None [])
                [] in
  let s1 := (execute_command command s).2 in
  let s2 := mkPM (child_exits (Z.pos 10) (os s1)) (background_processes_ s1) in
  (execute_command command s).1 = 0
  /\ background_processes_ s1 = background_processes_ s ++ [Z.pos 10]
  /\ trace (os s1) = trace (os s) ++ [EFork (Z.pos 10) []]
  /\ Z.pos 10 ∈ background_processes_ (cleanup_finished_processes s1).2
  /\ (Z.pos 10 ∉ background_processes_ (cleanup_finished_processes s2).2)
  /\ reports_of (Z.pos 10) (trace (os (cleanup_finished_processes s2).2))
     = reports_of (Z.pos 10) (trace (os s))
       ++ expected_report (Z.pos 10) (child_fate (os s) command (WExited 0)).
Proof.
  apply (background_command_is_registered_then_swept
           (mkCommand ["nope/tool"] EmptyString EmptyString false true false)
           "nope/tool" []
           (mkPM (mkWorld ∅ {[ "nope/tool" := 493 ]} (fun _ _ => true)
                    (fun _ => false) [Some (10%positive, WExited 0)] [] ∅ None [])
                 [])
           10%positive (WExited 0) []).
  - reflexivity.
  - intros H. by repeat (apply elem_of_cons in H as [H | H]; [discriminate H |]);
      apply elem_of_nil in H.
  - vm_compute. discriminate.
  - reflexivity.
  - reflexivity.
Defined.

(** X20: one sweep polls every tracked pid exactly once, in registry
    order, never waits, and leaves in the registry exactly the pids that
    were running children when the sweep began, in their order. *)
Theorem sweep_keeps_the_running_pids (s : PM) :
  background_processes_ (cleanup_finished_processes s).2
  = List.filter (still_running (procs (os s))) (background_processes_ s)
  /\ polled (trace (os (cleanup_finished_processes s).2))
     = polled (trace (os s)) ++ background_processes_ s
  /\ waited (trace (os (cleanup_finished_processes s).2))
     = waited (trace (os s)).
Proof.
  unfold cleanup_finished_processes.
  destruct (sweep (background_processes_ s) [] s) as [r s'] eqn:Hsweep.
  pose proof (sweep_filter _ _ _ _ _ Hsweep) as [Hr Hw].
  apply (sweep_spec 0) in Hsweep as (_ & _ & Hpoll & _).
  cbn [snd os background_processes_]. by rewrite Hr, app_nil_l.
Qed.

(** X21: [is_process_running] answers whether the child is still running,
    and asking about a child that has terminated reaps it: the next sweep
    then drops the pid from the registry without any report. *)
Theorem is_process_running_reaps_a_terminated_child
    (s : PM) (pid : Z) (ch : child) :
  procs (os s) !! pid = Some ch ->
  (is_process_running pid s).1 = negb (finished ch)
  /\ background_processes_ (is_process_running pid s).2 = background_processes_ s
  /\ (finished ch = false ->
      procs (os (is_process_running pid s).2) = procs (os s))
  /\ (finished ch = true ->
      procs (os (is_process_running pid s).2) !! pid = None
      /\ (pid ∉ background_processes_
                 (cleanup_finished_processes (is_process_running pid s).2).2)
      /\ reports_of pid
           (trace (os (cleanup_finished_processes (is_process_running pid s).2).2))
         = reports_of pid (trace (os s))).
Proof.
  intros Hp. unfold is_process_running, mbind, M_bind, bind, sys, waitpid_nohang.
  rewrite Hp. destruct (finished ch) eqn:Hfin; cbn.
  - repeat split; try done.
    + by rewrite lookup_delete_eq.
    + unfold cleanup_finished_processes.
      match goal with
      | |- context [sweep ?l [] ?x] => destruct (sweep l [] x) as [r s'] eqn:Hsweep
      end.
      apply (sweep_spec pid) in Hsweep as (_ & Hmem & _ & _).
      cbn [snd background_processes_]. rewrite Hmem.
      intros [Hnil | (_ & ch' & Hch & _)]; [by apply elem_of_nil in Hnil |].
      cbn in Hch. by rewrite lookup_delete_eq in Hch.
    + unfold cleanup_finished_processes.
      match goal with
      | |- context [sweep ?l [] ?x] => destruct (sweep l [] x) as [r s'] eqn:Hsweep
      end.
      apply (sweep_spec pid) in Hsweep as (Hrep & _ & _ & _).
      cbn [snd os]. rewrite Hrep.
      cbn [os log set_procs set_trace procs trace].
      rewrite lookup_delete_eq. cbn [sweep_reports].
      rewrite reports_of_app.
      change (reports_of pid [EPoll pid]) with (@nil event).
      by rewrite !(right_id_L [] (++)).
  - repeat split; done.
Qed.

Lemma is_process_running_reaps_a_terminated_child_witness :
  let s := mkPM (set_procs {[ 5 := mkChild (WSignaled 9) true ]} Demo.machine) [5] in
  (is_process_running 5 s).1 = negb (finished (mkChild (WSignaled 9) true))
  /\ background_processes_ (is_process_running 5 s).2 = background_processes_ s
  /\ (finished (mkChild (WSignaled 9) true) = false ->
      procs (os (is_process_running 5 s).2) = procs (os s))
  /\ (finished (mkChild (WSignaled 9) true) = true ->
      procs (os (is_process_running 5 s).2) !! 5 = None
      /\ (5 ∉ background_processes_
               (cleanup_finished_processes (is_process_running 5 s).2).2)
      /\ reports_of 5
           (trace (os (cleanup_finished_processes (is_process_running 5 s).2).2))
         = reports_of 5 (trace (os s))).
Proof.
  apply (is_process_running_reaps_a_terminated_child
           (mkPM (set_procs {[ 5 := mkChild (WSignaled 9) true ]} Demo.machine) [5])
           5 (mkChild (WSignaled 9) true)).
  reflexivity.
Defined.

(** X22: when a pipe call fails while the pipes of a pipeline are being
    created, [execute_pipeline_internal] reports it and returns -1 without
    forking anything; the pipes created before the failure are not closed. *)
Theorem failed_pipe_aborts_the_pipeline
    (pipeline : list Command) (s : PM) (pipes : list (Z * Z))
    (pipes_left : list (option (Z * Z))) :
  pipe_script (os s) = List.map Some pipes ++ None :: pipes_left ->
  (length pipes < length pipeline - 1)%nat ->
  execute_pipeline_internal pipeline s
  = (-1, mkPM (world_with (os s) (fork_script (os s)) pipes_left (procs (os s))
                 (trace (os s) ++ pipe_events pipes
                  ++ [EStderr "Failed to create pipe"]))
              (background_processes_ s)).
Proof.
  intros Hscript Hlen. unfold execute_pipeline_internal.
  unfold mbind at 1. unfold M_bind at 1. unfold bind at 1.
  by rewrite (create_pipes_fails pipes _ [] s pipes_left Hscript Hlen).
Qed.

Lemma failed_pipe_aborts_the_pipeline_witness :
  let s := mkPM (set_pipe_script [Some (3, 4); None] Demo.machine) [] in
  execute_pipeline_internal
    [Demo.simple ["ls"]; Demo.simple ["grep"; "foo"]; Demo.simple ["wc"]] s
  = (-1, mkPM (world_with (os s) (fork_script (os s)) [] (procs (os s))
                 (trace (os s) ++ pipe_events [(3, 4)]
                  ++ [EStderr "Failed to create pipe"]))
              (background_processes_ s)).
Proof.
  apply (failed_pipe_aborts_the_pipeline
           [Demo.simple ["ls"]; Demo.simple ["grep"; "foo"]; Demo.simple ["wc"]]
           (mkPM (set_pipe_script [Some (3, 4); None] Demo.machine) [])
           [(3, 4)] []).
  - reflexivity.
  - cbn. lia.
Defined.

(** X23: when a fork fails after the pipes of a pipeline have been created,
    [execute_pipeline_internal] reports it and returns -1 at once: the
    children forked so far stay in the table of children and are not waited
    for, and no pipe descriptor is closed in the parent. *)
Theorem failed_fork_abandons_the_pipeline
    (pipeline : list Command) (s : PM)
    (pipes : list (Z * Z)) (pipes_left : list (option (Z * Z)))
    (kids : list (positive * wstatus))
    (forks_left : list (option (positive * wstatus))) :
  pipe_script (os s) = List.map Some pipes ++ pipes_left ->
  length pipes = (length pipeline - 1)%nat ->
  fork_script (os s) = List.map Some kids ++ None :: forks_left ->
  (length kids < length pipeline)%nat ->
  execute_pipeline_internal pipeline s
  = (-1, mkPM (world_with (os s) forks_left pipes_left
                 (register (spawned (os s) pipeline kids) (procs (os s)))
                 (trace (os s) ++ pipe_events pipes
                  ++ fork_events 0 (length pipeline) (pipe_ends pipes)
                       (List.map fst (spawned (os s) pipeline kids))
                  ++ [EStderr "Failed to fork process"]))
              (background_processes_ s)).
Proof.
  intros Hpipes Hnp Hforks Hnk. unfold execute_pipeline_internal.
  unfold mbind at 1. unfold M_bind at 1. unfold bind at 1.
  rewrite <- Hnp, (create_pipes_ok pipes [] s pipes_left Hpipes).
  unfold mbind at 1. unfold M_bind at 1. unfold bind at 1.
  rewrite (fork_children_fails _ kids _ _ _ _ _ forks_left) by done.
  cbn [os background_processes_ world_with environ files open_ok execvp_ok
       fork_script pipe_script procs cwd trace].
  rewrite (spawned_frame _ (os s)) by done.
  unfold world_with. cbn. by rewrite <- !(assoc_L (++)).
Qed.

Lemma failed_fork_abandons_the_pipeline_witness :
  let s := mkPM (set_fork_script [Some (10%positive, WExited 0); None]
                   Demo.machine) [] in
  let pipeline := [Demo.simple ["ls"]; Demo.simple ["grep"; "foo"];
                   Demo.simple ["wc"]] in
  execute_pipeline_internal pipeline s
  = (-1, mkPM (world_with (os s) [] []
                 (register (spawned (os s) pipeline [(10%positive, WExited 0)])
                    (procs (os s)))
                 (trace (os s) ++ pipe_events [(3, 4); (5, 6)]
                  ++ fork_events 0 (length pipeline) (pipe_ends [(3, 4); (5, 6)])
                       (List.map fst
                          (spawned (os s) pipeline [(10%positive, WExited 0)]))
                  ++ [EStderr "Failed to fork process"]))
              (background_processes_ s)).
Proof.
  apply (failed_fork_abandons_the_pipeline
           [Demo.simple ["ls"]; Demo.simple ["grep"; "foo"]; Demo.simple ["wc"]]
           (mkPM (set_fork_script [Some (10%positive, WExited 0); None]
                    Demo.machine) [])
           [(3, 4); (5, 6)] [] [(10%positive, WExited 0)] []).
  - reflexivity.
  - reflexivity.
  - reflexivity.
  - cbn. lia.
Defined.

(** X24: for a pipeline of two or more commands that name no redirection
    of their own, when all pipe and fork calls succeed, the parent does, in
    this order and nothing else: create the pipes; fork the children in
    command order, child [i] duplicating the read end of pipe [i-1] onto its
    standard input (except the first) and the write end of pipe [i] onto
    its standard output (except the last) and then closing both ends of
    every pipe; close every pipe descriptor itself; and only then wait for
    the children in command order. *)
Theorem pipeline_closes_the_pipes_before_waiting
    (pipeline : list Command) (s : PM)
    (pipes : list (Z * Z)) (pipes_left : list (option (Z * Z)))
    (kids : list (positive * wstatus))
    (forks_left : list (option (positive * wstatus))) :
  (2 <= length pipeline)%nat ->
  Forall no_redirection pipeline ->
  pipe_script (os s) = List.map Some pipes ++ pipes_left ->
  length pipes = (length pipeline - 1)%nat ->
  fork_script (os s) = List.map Some kids ++ forks_left ->
  length kids = length pipeline ->
  NoDup (List.map fst kids) ->
  exists (status : Z) (s' : PM),
    execute_pipeline_internal pipeline s = (status, s')
    /\ trace (os s')
       = trace (os s)
         ++ pipe_events pipes
         ++ wired_forks pipes (List.map (fun kid => Z.pos kid.1) kids)
         ++ List.map EClose (pipe_ends pipes)
         ++ List.map EWait (List.map (fun kid => Z.pos kid.1) kids).
Proof.
  intros Hlen _ Hpipes Hnp Hforks Hnk Hnd.
  unfold execute_pipeline_internal.
  unfold mbind at 1. unfold M_bind at 1. unfold bind at 1.
  rewrite <- Hnp, (create_pipes_ok pipes [] s pipes_left Hpipes).
  unfold mbind at 1. unfold M_bind at 1. unfold bind at 1.
  rewrite (fork_children_ok _ kids _ _ _ _ _ forks_left) by done.
  cbn [os background_processes_ world_with environ files open_ok execvp_ok
       fork_script pipe_script procs cwd trace].
  rewrite (spawned_frame _ (os s)) by done.
  unfold mbind at 1. unfold M_bind at 1. unfold bind at 1.
  rewrite close_all_ok.
  cbn [os background_processes_ world_with environ files open_ok execvp_ok
       fork_script pipe_script procs cwd trace].
  set (born := spawned (os s) pipeline kids).
  assert (List.map fst born = List.map (fun kid => Z.pos kid.1) kids) as Hpids
    by (by apply spawned_pids).
  assert (NoDup (List.map fst born)) as Hndb.
  { rewrite Hpids.
    replace (List.map (fun kid : positive * wstatus => Z.pos kid.1) kids)
      with (Z.pos <$> (List.map fst kids)) by (by rewrite List.map_map).
    apply NoDup_fmap_2; [|done]. intros x y [= ->]. done. }
  rewrite !app_nil_l.
  match goal with
  | |- context [wait_children ?back (List.map fst born) 0 ?x] =>
      edestruct (wait_children_ok born back 0 x) as (s' & -> & Htrace);
      [done | |]
  end.
  { intros p0 f0 Hin. exists false. cbn [os procs].
    by apply register_lookup. }
  unfold world_with in Htrace. cbn [os trace] in Htrace.
  rewrite <- !(assoc_L (++)), Hpids in Htrace.
  assert (length pipeline = S (length pipes)) as Hsize by lia.
  rewrite Hsize, fork_events_wired in Htrace
    by (rewrite length_map; cbn; lia).
  eexists. exists s'. split; [done | exact Htrace].
Qed.

Lemma pipeline_closes_the_pipes_before_waiting_witness :
  let pipeline := [Demo.simple ["ls"]; Demo.simple ["grep"; "foo"];
                   Demo.simple ["wc"; "-l"]] in
  let kids := [(10%positive, WExited 3); (11%positive, WSignaled 9);
               (12%positive, WExited 7)] in
  exists (status : Z) (s' : PM),
    execute_pipeline_internal pipeline Demo.manager = (status, s')
    /\ trace (os s')
       = trace (os Demo.manager)
         ++ pipe_events [(3, 4); (5, 6)]
         ++ wired_forks [(3, 4); (5, 6)]
              (List.map (fun kid => Z.pos kid.1) kids)
         ++ List.map EClose (pipe_ends [(3, 4); (5, 6)])
         ++ List.map EWait (List.map (fun kid => Z.pos kid.1) kids).
Proof.
  apply (pipeline_closes_the_pipes_before_waiting
           [Demo.simple ["ls"]; Demo.simple ["grep"; "foo"]; Demo.simple ["wc"; "-l"]]
           Demo.manager [(3, 4); (5, 6)] []
           [(10%positive, WExited 3); (11%positive, WSignaled 9);
            (12%positive, WExited 7)] []).
  - cbn. lia.
  - repeat constructor.
  - reflexivity.
  - reflexivity.
  - reflexivity.
  - reflexivity.
  - cbn. repeat (apply NoDup_cons; split;
      [intros H; repeat (apply elem_of_cons in H as [H | H]; [discriminate H |]);
       by apply elem_of_nil in H |]).
    apply NoDup_nil_2.
Defined.

End ProcessExtras.

(** ** The internal operations and the session loop *)

Module ShellMoreFacts.
Import Chars CStrings CommandParser OS ProcessManager StringFacts.
Import ParserSpec ParserFacts ParserMoreSpec ParserMoreFacts Builtins ShellLoop.

(** *** The status of an internal operation *)

Lemma cmd_cd_status chdir args w :
  (cmd_cd chdir args w).1 = 0 \/ (cmd_cd chdir args w).1 = 1.
Proof.
  unfold cmd_cd.
  destruct args as [|a [|b args]]; [| |by right].
  - destruct (environ w !! "HOME") as [home|]; [|by right].
    destruct (chdir (resolve_path w home) w); [by left | by right].
  - destruct (chdir (resolve_path w a) w); [by left | by right].
Qed.

Lemma c_str_no_nul : forall s, contains nul s = false -> c_str s = s.
Proof.
  induction s as [|c s IH]; [done |]. cbn [contains c_str].
  intros [Hc Hs]%orb_false_elim. rewrite Hc. by rewrite IH.
Qed.

Lemma export_loop_status : forall args w,
  (export_loop args w).1 = 0 \/ (export_loop args w).1 = 1.
Proof.
  induction args as [|arg args IH]; intros w; [by left |].
  cbn [export_loop].
  destruct (split_at_equals arg) as [[n v]|]; [|apply IH].
  destruct (setenv (c_str n) (c_str v) w); [apply IH | by right].
Qed.

Lemma cmd_help_status args w :
  (cmd_help args w).1 = 0 \/ (cmd_help args w).1 = 1.
Proof.
  unfold cmd_help. destruct args as [|a [|b args]]; [by left | | by right].
  destruct (find_entry a builtin_table) as [[[n d] u]|]; [by left | by right].
Qed.

Lemma is_builtin_cases cmd_name :
  BuiltinCommands.is_builtin cmd_name = true ->
  cmd_name = "cd" \/ cmd_name = "pwd" \/ cmd_name = "exit" \/ cmd_name = "help"
  \/ cmd_name = "export" \/ cmd_name = "echo" \/ cmd_name = "history".
Proof.
  unfold BuiltinCommands.is_builtin, BuiltinCommands.builtin_commands_.
  intros H%bool_decide_eq_true.
  repeat (apply elem_of_cons in H as [-> | H]; [tauto |]).
  by apply elem_of_nil in H.
Qed.

Lemma exit_status_of_builtin chdir cmd_name args w :
  (dispatch (builtin_commands_ chdir) cmd_name args w).1 = -1
  <-> cmd_name = "exit" /\ (length args <= 1)%nat.
Proof.
  unfold builtin_commands_. cbn [dispatch name handler].
  destruct (String.eqb_spec "cd" cmd_name) as [<- | _].
  { destruct (cmd_cd_status chdir args w) as [-> | ->];
      (split; [done | by intros [? _]]). }
  destruct (String.eqb_spec "pwd" cmd_name) as [<- | _].
  { unfold cmd_pwd. destruct args; [destruct (empty _) |];
      (split; [done | by intros [? _]]). }
  destruct (String.eqb_spec "exit" cmd_name) as [<- | Hne].
  { unfold cmd_exit. destruct args as [|a [|b args]]; cbn.
    - split; [intros _; split; [done | lia] | done].
    - split; [intros _; split; [done | lia] | done].
    - split; [done | intros [_ ?]; lia]. }
  split; [|intros [Heq _]; congruence].
  destruct (String.eqb_spec "help" cmd_name) as [<- | _].
  { by destruct (cmd_help_status args w) as [-> | ->]. }
  destruct (String.eqb_spec "export" cmd_name) as [<- | _].
  { unfold cmd_export. destruct args as [|a args]; [done |].
    by destruct (export_loop_status (a :: args) w) as [-> | ->]. }
  destruct (String.eqb_spec "echo" cmd_name) as [<- | _]; [done |].
  destruct (String.eqb_spec "history" cmd_name) as [<- | _].
  { unfold cmd_history. by destruct args. }
  done.
Qed.

(** *** Assignments *)

Lemma split_at_equals_app : forall var_name var_value,
  contains "=" var_name = false ->
  split_at_equals (var_name +:+ String "=" var_value)
  = Some (var_name, var_value).
Proof.
  induction var_name as [|c n IH]; intros v Hn; [done |].
  apply contains_cons_false in Hn as [Hc Hn].
  rewrite string_app_cons. cbn [split_at_equals].
  destruct (Ascii.eqb_spec c "="); [done |]. by rewrite IH.
Qed.

(** *** The loop after the session has been stopped *)

Lemma run_loop_stopped eb cfg lines count sh :
  Shell.running_ sh = false -> run_loop eb cfg lines count sh = sh.
Proof. intros H. destruct lines; cbn [run_loop]; by rewrite H. Qed.

Lemma sweep_background_running sh :
  Shell.running_ (sweep_background sh) = Shell.running_ sh.
Proof. done. Qed.

Lemma unwords_not_blank w ws :
  plain_word w = true -> only_blanks (unwords (w :: ws)) = false.
Proof.
  intros [Hne Hw]%andb_prop. destruct w as [|c w]; [done |].
  cbn [all_chars] in Hw. apply andb_prop in Hw as [Hc _].
  assert (skipped_char c = false) as Hs.
  { revert Hc. destruct c as [[] [] [] [] [] [] [] []]; vm_compute; congruence. }
  destruct ws; cbn [unwords]; rewrite ?string_app_cons; cbn [only_blanks];
    by rewrite Hs.
Qed.

(** *** The name of the working directory *)

Lemma after_last_slash_none : forall s,
  contains slash s = false -> after_last_slash s = None.
Proof.
  induction s as [|c s IH]; [done |].
  intros [Hc Hs]%contains_cons_false. cbn [after_last_slash].
  rewrite IH by done. by destruct (Ascii.eqb_spec c slash).
Qed.

Lemma after_last_slash_app : forall parent name,
  contains slash name = false ->
  after_last_slash (parent +:+ String slash name) = Some name.
Proof.
  induction parent as [|c parent IH]; intros name Hname.
  - rewrite string_app_nil_l. cbn [after_last_slash].
    rewrite after_last_slash_none by done.
    by change (Ascii.eqb slash slash) with true.
  - rewrite string_app_cons. cbn [after_last_slash]. by rewrite IH.
Qed.

(** *** Whether a line stops the session *)

Lemma builtin_line_running chdir line sh command cmd_name args :
  parse_command (environ (os (Shell.process_manager_ sh))) line = Some command ->
  arguments command = cmd_name :: args ->
  BuiltinCommands.is_builtin cmd_name = true ->
  Shell.running_ (Shell.execute_command (execute_builtin chdir) line sh)
  = if (dispatch (builtin_commands_ chdir) cmd_name args
          (os (Shell.process_manager_ sh))).1 =? -1
    then false else Shell.running_ sh.
Proof.
  intros Hparse Hargs Hb. unfold Shell.execute_command.
  rewrite Hparse, Hargs, Hb. unfold execute_builtin. rewrite Hargs.
  by destruct (dispatch _ _ _ _) as [status w'].
Qed.

Lemma other_line_running eb line sh :
  match parse_command (environ (os (Shell.process_manager_ sh))) line with
  | Some command =>
      match arguments command with
      | [] => false
      | cmd_name :: _ => BuiltinCommands.is_builtin cmd_name
      end
  | None => false
  end = false ->
  Shell.running_ (Shell.execute_command eb line sh) = Shell.running_ sh.
Proof.
  unfold Shell.execute_command.
  destruct (parse_command _ line) as [command|]; [|done].
  intros ->.
  destruct (is_pipeline command).
  - by destruct ((_ : M Z) (Shell.process_manager_ sh)) as [status pm'].
  - by destruct (execute_command command (Shell.process_manager_ sh))
      as [status pm'].
Qed.


End ShellMoreFacts.

Module ShellExtras.
Import Chars CStrings CommandParser OS ProcessManager StringFacts.
Import ParserSpec ParserFacts ParserMoreSpec ParserMoreFacts.
Import Builtins ShellLoop ShellMoreFacts.

(** X25: a line that parses into a command stops the running session
    exactly when the command is [exit] with at most one argument; [exit]
    with two or more arguments, every other internal operation and every
    external command leave the session running. *)
Theorem only_exit_stops_the_session
    (chdir : string -> World -> option World) (line : string)
    (sh : Shell.ShellState) (command : Command) :
  parse_command (environ (os (Shell.process_manager_ sh))) line = Some command ->
  Shell.running_ sh = true ->
  Shell.running_ (Shell.execute_command (execute_builtin chdir) line sh) = false
  <-> exists args, arguments command = "exit" :: args /\ (length args <= 1)%nat.
Proof.
  intros Hparse Hrun.
  destruct (arguments command) as [|cmd_name args] eqn:Hargs.
  - rewrite other_line_running by (by rewrite Hparse, Hargs).
    rewrite Hrun. split; [done | by intros (? & ? & _)].
  - destruct (BuiltinCommands.is_builtin cmd_name) eqn:Hb.
    + rewrite (builtin_line_running chdir line sh command cmd_name args) by done.
      rewrite Hrun.
      pose proof (exit_status_of_builtin chdir cmd_name args
                    (os (Shell.process_manager_ sh))) as Hexit.
      destruct (Z.eqb_spec (dispatch (builtin_commands_ chdir) cmd_name args
                              (os (Shell.process_manager_ sh))).1 (-1)) as [He | He].
      * split; [|done]. intros _. apply Hexit in He as [-> Hlen]. eauto.
      * split; [done |]. intros (args' & [= -> <-] & Hlen).
        destruct He. by apply Hexit.
    + rewrite other_line_running by (by rewrite Hparse, Hargs).
      rewrite Hrun. split; [done |]. by intros (args' & [= -> <-] & _).
Qed.

Lemma only_exit_stops_the_session_witness :
  Shell.running_ (Shell.execute_command (execute_builtin (fun _ _ => None))
                    "exit 3" Demo.shell) = false
  <-> exists args,
        arguments (mkCommand ["exit"; "3"] EmptyString EmptyString false false false)
        = "exit" :: args /\ (length args <= 1)%nat.
Proof.
  apply (only_exit_stops_the_session (fun _ _ => None) "exit 3" Demo.shell
           (mkCommand ["exit"; "3"] EmptyString EmptyString false false false));
    reflexivity.
Defined.

(** X26: [export] with one argument [NAME=value], for a non-empty name
    without a NUL byte, succeeds, prints nothing and changes no other
    variable.  The variable is set to the value as a C string, that is up to
    its first NUL byte, which is all of it when it has none, and afterwards
    the expander replaces the braced reference to NAME by that string. *)
Theorem exported_variable_is_expanded
    (w : World) (var_name var_value : string) :
  var_name <> EmptyString ->
  contains "=" var_name = false ->
  contains nul var_name = false ->
  contains rbrace var_name = false ->
  (cmd_export [var_name +:+ String "=" var_value] w).1 = 0
  /\ expand_variables_in_token
       (environ (cmd_export [var_name +:+ String "=" var_value] w).2)
       (String dollar (String lbrace (var_name +:+ String rbrace EmptyString)))
     = c_str var_value
  /\ (contains nul var_value = false -> c_str var_value = var_value)
  /\ (forall other, other <> var_name ->
        environ (cmd_export [var_name +:+ String "=" var_value] w).2 !! other
        = environ w !! other)
  /\ trace (cmd_export [var_name +:+ String "=" var_value] w).2 = trace w.
Proof.
  intros Hne Heq Hnul Hbrace.
  unfold cmd_export. cbn [export_loop].
  rewrite split_at_equals_app by done. unfold setenv.
  rewrite (c_str_no_nul var_name) by done. rewrite Heq.
  destruct var_name as [|c n]; [done |]. cbn [empty orb export_loop fst snd].
  split; [done |]. split; [|split; [apply c_str_no_nul | split; [|done]]].
  - rewrite expand_dollar_brace, read_braced_closed by done.
    rewrite string_app_nil_l. unfold get_environment_variable.
    cbn [set_environ environ]. rewrite lookup_insert_eq.
    by rewrite string_app_nil_r.
  - intros other Hother. cbn [set_environ environ].
    by rewrite lookup_insert_ne.
Qed.

Lemma exported_variable_is_expanded_witness :
  (cmd_export ["EDITOR" +:+ String "=" "vi -u x=y"] Demo.machine).1 = 0
  /\ expand_variables_in_token
       (environ (cmd_export ["EDITOR" +:+ String "=" "vi -u x=y"] Demo.machine).2)
       (String dollar (String lbrace ("EDITOR" +:+ String rbrace EmptyString)))
     = c_str "vi -u x=y"
  /\ (contains nul "vi -u x=y" = false -> c_str "vi -u x=y" = "vi -u x=y")
  /\ (forall other, other <> "EDITOR" ->
        environ (cmd_export ["EDITOR" +:+ String "=" "vi -u x=y"] Demo.machine).2
          !! other
        = environ Demo.machine !! other)
  /\ trace (cmd_export ["EDITOR" +:+ String "=" "vi -u x=y"] Demo.machine).2
     = trace Demo.machine.
Proof.
  apply (exported_variable_is_expanded Demo.machine "EDITOR" "vi -u x=y");
    [discriminate | reflexivity | reflexivity | reflexivity].
Defined.

(** X27: once a line [exit], with at most one plain argument, has been
    read by a running session, no later line is read: the lines after it do
    not change the final state, in which the session is stopped. *)
Theorem session_ends_at_exit
    (chdir : string -> World -> option World) (cfg : Config)
    (args : list string) (rest : list string) (command_count : Z)
    (sh : Shell.ShellState) :
  Shell.running_ sh = true ->
  (length args <= 1)%nat ->
  Forall (fun t => plain_word t = true) args ->
  Forall (fun t => redirect_op t = false) args ->
  last args <> Some "&" ->
  run_loop (execute_builtin chdir) cfg (unwords ("exit" :: args) :: rest)
           command_count sh
  = run_loop (execute_builtin chdir) cfg [unwords ("exit" :: args)]
             command_count sh
  /\ Shell.running_
       (run_loop (execute_builtin chdir) cfg [unwords ("exit" :: args)]
                 command_count sh) = false.
Proof.
  intros Hrun Hlen Hplain Hred Hlast.
  set (line := unwords ("exit" :: args)).
  set (sh1 := display_prompt cfg sh).
  assert (Forall (fun t => plain_word t = true) ("exit" :: args)) as Hall
    by (by constructor).
  assert (parse_command (environ (os (Shell.process_manager_ sh1))) line
          = Some (mkCommand ("exit" :: expand_variables
                               (environ (os (Shell.process_manager_ sh1))) args)
                            EmptyString EmptyString false false false)) as Hparse.
  { unfold parse_command, line.
    rewrite unwords_nonempty, parse_pipeline_unwords by done.
    rewrite parse_single_command_words; [done | |].
    - apply parse_redirection_words. by constructor.
    - rewrite last_cons. by destruct (last args). }
  assert (Shell.running_
            (Shell.execute_command (execute_builtin chdir) line sh1) = false)
    as Hstop.
  { rewrite (builtin_line_running chdir line sh1 _ "exit" _ Hparse)
      by reflexivity.
    assert ((dispatch (builtin_commands_ chdir) "exit"
               (expand_variables (environ (os (Shell.process_manager_ sh1))) args)
               (os (Shell.process_manager_ sh1))).1 = -1) as ->; [|done].
    apply exit_status_of_builtin. split; [done |].
    unfold expand_variables. by rewrite length_map. }
  assert (forall more,
             run_loop (execute_builtin chdir) cfg (line :: more) command_count sh
             = if 10 <=? command_count + 1
               then sweep_background
                      (Shell.execute_command (execute_builtin chdir) line sh1)
               else Shell.execute_command (execute_builtin chdir) line sh1)
    as Hloop.
  { intros more. cbn [run_loop]. rewrite Hrun. fold sh1.
    unfold line at 1. rewrite unwords_not_blank by done. fold line.
    destruct (10 <=? command_count + 1); by rewrite run_loop_stopped. }
  rewrite !Hloop. split; [done |].
  by destruct (10 <=? command_count + 1).
Qed.

Lemma session_ends_at_exit_witness :
  run_loop (execute_builtin (fun _ _ => None))
           (mkConfig default_template "me" "box" false)
           (unwords ("exit" :: ["3"]) :: ["ls"; "tool"]) 9 Demo.shell
  = run_loop (execute_builtin (fun _ _ => None))
             (mkConfig default_template "me" "box" false)
             [unwords ("exit" :: ["3"])] 9 Demo.shell
  /\ Shell.running_
       (run_loop (execute_builtin (fun _ _ => None))
                 (mkConfig default_template "me" "box" false)
                 [unwords ("exit" :: ["3"])] 9 Demo.shell) = false.
Proof.
  apply (session_ends_at_exit (fun _ _ => None)
           (mkConfig default_template "me" "box" false)
           ["3"] ["ls"; "tool"] 9 Demo.shell).
  - reflexivity.
  - cbn. lia.
  - repeat constructor.
  - repeat constructor.
  - vm_compute. discriminate.
Defined.

(** X28: with the template that [initialize] installs, the prompt is the
    user name, an at sign, the host name, a colon, the last component of the
    current directory (for a directory that ends in a non-empty name after
    its last slash), a hash sign for root and a dollar sign otherwise, and a
    blank. *)
Theorem default_prompt_shows_the_directory_name
    (cfg : Config) (sh : Shell.ShellState) (parent dir_name : string) :
  prompt_template_ cfg = default_template ->
  Shell.current_directory_ sh = parent +:+ String slash dir_name ->
  dir_name <> EmptyString ->
  contains slash dir_name = false ->
  generate_prompt cfg sh
  = username_ cfg +:+ "@" +:+ hostname_ cfg +:+ ":" +:+ dir_name
    +:+ (if is_root cfg then "#" else "$") +:+ " ".
Proof.
  intros Htemplate Hdir Hne Hname. unfold generate_prompt.
  rewrite Htemplate, Hdir.
  assert (working_directory_name (parent +:+ String slash dir_name) = dir_name)
    as Hwd.
  { unfold working_directory_name. rewrite after_last_slash_app by done.
    by destruct dir_name. }
  let t := eval vm_compute in default_template in change default_template with t.
  cbn [prompt_loop].
  repeat (match goal with
          | |- context [Ascii.eqb ?a backslash] =>
              let b := eval vm_compute in (Ascii.eqb a backslash) in
              change (Ascii.eqb a backslash) with b
          end; cbv iota).
  unfold prompt_escape.
  repeat (match goal with
          | |- context [Ascii.eqb ?a ?b] =>
              let r := eval vm_compute in (Ascii.eqb a b) in
              change (Ascii.eqb a b) with r
          end; cbv iota).
  rewrite Hwd. unfold push_back.
  by rewrite string_app_nil_l, !string_app_assoc.
Qed.

Lemma default_prompt_shows_the_directory_name_witness :
  generate_prompt (mkConfig default_template "me" "box" false)
                  (Shell.mkShell true "/home/me/src" Demo.manager)
  = username_ (mkConfig default_template "me" "box" false) +:+ "@"
    +:+ hostname_ (mkConfig default_template "me" "box" false) +:+ ":" +:+ "src"
    +:+ (if is_root (mkConfig default_template "me" "box" false) then "#" else "$")
    +:+ " ".
Proof.
  apply (default_prompt_shows_the_directory_name
           (mkConfig default_template "me" "box" false)
           (Shell.mkShell true "/home/me/src" Demo.manager) "/home/me" "src");
    [reflexivity | reflexivity | discriminate | reflexivity].
Defined.

(** X29: when HOME is set, [resolve_path] maps a lone tilde to HOME and a
    tilde followed by a slash and more text to HOME followed by that slash
    and text, but leaves a tilde followed by a slash alone as it is. *)
Theorem tilde_is_resolved_against_home (w : World) (home rest : string) :
  environ w !! "HOME" = Some home ->
  resolve_path w "~" = home
  /\ resolve_path w (String "~" (String slash rest))
     = if empty rest then String "~" (String slash rest)
       else home +:+ String slash rest.
Proof.
  intros Hhome. unfold resolve_path. split.
  - cbn [empty]. change (String.eqb "~" "~") with true. by rewrite Hhome.
  - cbn [empty].
    assert (String.eqb (String "~" (String slash rest)) "~" = false) as ->
      by (by apply String.eqb_neq).
    destruct rest as [|c rest]; [done |].
    cbn [String.length empty].
    assert (String.substring 0 2 (String "~" (String slash (String c rest)))
            = "~/") as -> by (by destruct rest).
    change (String.eqb "~/" "~/") with true.
    by rewrite Hhome.
Qed.

Lemma tilde_is_resolved_against_home_witness :
  resolve_path (set_environ {[ "HOME" := "/root" ]} Demo.machine) "~" = "/root"
  /\ resolve_path (set_environ {[ "HOME" := "/root" ]} Demo.machine)
       (String "~" (String slash "bin"))
     = if empty "bin" then String "~" (String slash "bin")
       else "/root" +:+ String slash "bin".
Proof.
  apply (tilde_is_resolved_against_home
           (set_environ {[ "HOME" := "/root" ]} Demo.machine) "/root" "bin").
  reflexivity.
Defined.



End ShellExtras.
